(** * inprog: the world-map renderer and the leaderboard cache

    A shallow embedding of [WorldBackground] (the canvas world map: projection
    fitting, centroid index, pins, blips, click and hover handling) and of
    [src/lib/leaderboard.ts] (country-code normalisation, the local counts
    cache, the numeric-to-alpha-2 lookup).

    Conventions.
    - JavaScript numbers are exact rationals [Q]: rounding of doubles is not
      modelled, and a decimal literal of the source denotes the rational it
      names.  [Math.PI] is the rational value of the double constant.
    - Strings are [string] over [ascii]; [toUpperCase] and [trim] act on the
      ASCII range.
    - The closure state of the component is an explicit record; every handler
      is a function from a state and its event payload to the next state and
      the list of effects it emits (callback calls, dispatched events, canvas
      operations).
    - d3-geo, topojson and the iso-3166-1 table are libraries outside the
      repository; they are the fields of a class the model is parametric in. *)

From Stdlib Require Import Ascii QArith Qminmax Qround Reals Qreals Lra Lqa.
From Stdlib Require Import Sorted Permutation.
From stdpp Require Import gmap strings list.

Set Default Proof Using "Type".

(** ** JavaScript string primitives used by the sources *)

Module JSString.

Definition is_lower (c : ascii) : bool :=
  let n := nat_of_ascii c in (97 <=? n)%nat && (n <=? 122)%nat.

Definition is_upper (c : ascii) : bool :=
  let n := nat_of_ascii c in (65 <=? n)%nat && (n <=? 90)%nat.

Definition upper_char (c : ascii) : ascii :=
  if is_lower c then ascii_of_nat (nat_of_ascii c - 32) else c.

(** [String.prototype.toUpperCase] *)
Fixpoint toUpperCase (s : string) : string :=
  match s with
  | EmptyString => EmptyString
  | String c r => String (upper_char c) (toUpperCase r)
  end.

(** White space and line terminators of the ASCII range. *)
Definition is_white (c : ascii) : bool :=
  let n := nat_of_ascii c in
  (n =? 32)%nat || ((9 <=? n)%nat && (n <=? 13)%nat).

Fixpoint trimStart (s : string) : string :=
  match s with
  | EmptyString => EmptyString
  | String c r => if is_white c then trimStart r else s
  end.

Fixpoint trimEnd (s : string) : string :=
  match s with
  | EmptyString => EmptyString
  | String c r =>
      match trimEnd r with
      | EmptyString => if is_white c then EmptyString else String c EmptyString
      | r' => String c r'
      end
  end.

(** [String.prototype.trim] *)
Definition trim (s : string) : string := trimEnd (trimStart s).

Fixpoint repeat_char (c : ascii) (n : nat) : string :=
  match n with
  | O => EmptyString
  | S k => String c (repeat_char c k)
  end.

(** [s.padStart(n, c)] for a one-character pad string. *)
Definition padStart (n : nat) (c : ascii) (s : string) : string :=
  (repeat_char c (n - String.length s) +:+ s)%string.

(** [/^[A-Z]{2}$/.test(s)] *)
Definition test_AZ2 (s : string) : bool :=
  match s with
  | String a (String b EmptyString) => is_upper a && is_upper b
  | _ => false
  end.

(** Truthiness of a string: the empty string is falsy. *)
Definition truthy (s : string) : bool :=
  match s with
  | EmptyString => false
  | _ => true
  end.

End JSString.

Import JSString.

(** ** src/lib/leaderboard.ts *)

Module Leaderboard.

(** [localStorage] as the cache sees it: the object parsed from the item under
    [STORAGE_KEY] ([None] when the item is missing, not JSON, or not an
    object: [getCounts] answers [{}] in all three cases), and whether
    [setItem] succeeds or throws.  The object is kept as its counts by code;
    the order of its keys is not tracked, so what is said of a storage is said
    of the count of each code. *)
Record Storage := mkStorage {
  item : option (gmap string Q);
  writable : bool
}.

(** [None] is [typeof window === 'undefined']. *)
Definition Window : Type := option Storage.

Inductive Emitted := LeaderboardUpdate.

(** The [delta] argument of [incrementCountry]: a finite number, or a value
    that [Number.isFinite] rejects (NaN, an infinity). *)
Inductive Delta :=
| Finite (q : Q)
| NotFinite.

Definition getCounts (w : Window) : gmap string Q :=
  match w with
  | None => ∅
  | Some ls =>
      match item ls with
      | None => ∅
      | Some parsed => parsed
      end
  end.

Definition setCounts (next : gmap string Q) (w : Window)
  : Window * list Emitted :=
  match w with
  | None => (None, [])
  | Some ls =>
      if writable ls
      then (Some (mkStorage (Some next) (writable ls)), [LeaderboardUpdate])
      else (Some ls, [])
  end.

Definition normalizeCountryCode (input : option string) : option string :=
  match input with
  | None => None
  | Some s =>
      if truthy s then
        let code := toUpperCase (trim s) in
        if test_AZ2 code then Some code else None
      else None
  end.

(** [delta = 1] when the argument is omitted; [Number.isFinite(delta) ? delta : 1]. *)
Definition increment_of (delta : option Delta) : Q :=
  match delta with
  | None => 1
  | Some (Finite d) => d
  | Some NotFinite => 1
  end.

Definition incrementCountry (code : string) (delta : option Delta) (w : Window)
  : Window * list Emitted :=
  match normalizeCountryCode (Some code) with
  | None => (w, [])
  | Some cc =>
      let counts := getCounts w in
      let next := <[cc := (default 0 (counts !! cc) + increment_of delta)%Q]> counts in
      setCounts next w
  end.

Definition clearCounts (w : Window) : Window * list Emitted := setCounts ∅ w.

Section Iso.

(** [iso.whereNumeric(n)?.alpha2] of the iso-3166-1 package: the alpha-2
    field of the entry with numeric code [n], [None] when there is no entry
    or the entry has no such field. *)
Variable whereNumeric : string -> option string.

Definition alpha2FromNumeric (numeric : option string) : option string :=
  match numeric with
  | None => None
  | Some n =>
      let nstr := padStart 3 "0"%char n in
      match whereNumeric nstr with
      | Some a => if truthy a then Some (toUpperCase a) else None
      | None => None
      end
  end.

End Iso.

(** An item of the board: [{ code, count }]. *)
Record CountryCount := mkCountryCount {
  code : string;
  count : Q
}.

(** [Array.prototype.sort] with the comparator [(a, b) => b.count - a.count]:
    a stable sort by decreasing count.  [place x sorted] puts [x], which stood
    before the items of [sorted] in the array, in front of the first item whose
    count does not exceed its own. *)
Fixpoint place (x : CountryCount) (sorted : list CountryCount)
  : list CountryCount :=
  match sorted with
  | [] => [x]
  | y :: rest =>
      if Qle_bool (count y) (count x) then x :: y :: rest
      else y :: place x rest
  end.

Definition sortByCount (items : list CountryCount) : list CountryCount :=
  fold_right place [] items.

(** [a] may stand before [b] on the board. *)
Definition outranks (a b : CountryCount) : Prop := (count b <= count a)%Q.

(** [topN(n)], over [entries]: the [Object.entries] of the object that
    [getCounts] returns, in the key order of that object.
    [slice(0, Math.max(0, n))] truncates its bound to an integer. *)
Definition topN (entries : list (string * Q)) (n : Q) : list CountryCount :=
  firstn (Z.to_nat (Qfloor (Qmax 0 n)))
    (sortByCount (map (fun e => mkCountryCount (fst e) (snd e)) entries)).

(** [s.charCodeAt(i)] for an index within the string. *)
Definition charCodeAt (s : string) (i : nat) : Z :=
  match String.get i s with
  | Some c => Z.of_nat (nat_of_ascii c)
  | None => 0%Z
  end.

(** The white flag: U+1F3F3 U+FE0F. *)
Definition WHITE_FLAG : list Z := [0x1f3f3; 0xfe0f]%Z.

(** [codeToFlagEmoji]: the code points of the string it returns. *)
Definition codeToFlagEmoji (input : string) : list Z :=
  match normalizeCountryCode (Some input) with
  | None => WHITE_FLAG
  | Some c =>
      let A := 0x41%Z in
      let RI := 0x1f1e6%Z in
      let first := (RI + (charCodeAt c 0 - A))%Z in
      let second := (RI + (charCodeAt c 1 - A))%Z in
      [first; second]
  end.

End Leaderboard.

(** ** WorldBackground: the canvas world map *)

Module World.

Open Scope Q_scope.

Definition Point : Type := (Q * Q)%type.

(** [Math.PI]: the double 0x400921FB54442D18. *)
Definition Math_PI : Q := 884279719003555 # 281474976710656.

Definition Qltb (a b : Q) : bool := negb (Qle_bool b a).

(** [Math.sqrt(d2) <= th] for [0 <= d2] and [0 <= th], decided on the
    squares (see [sqrt_leb_real]). *)
Definition sqrt_leb (d2 th : Q) : bool := Qle_bool d2 (th * th).

Inductive BlipKind := New | Repeat.

Record Blip := mkBlip {
  blip_x : Q;
  blip_y : Q;
  blip_kind : BlipKind;
  blip_start : Q
}.

(** What the component reads and sets of a d3 [GeoProjection]. *)
Record Projection := mkProjection {
  scale : Q;
  translate : Point
}.

(** A GeoJSON feature: [feat.id] (already through [String], [None] when it is
    null or undefined) and its geometry. *)
Record Feature (G : Type) := mkFeature {
  feat_id : option string;
  feat_geometry : G
}.
Arguments mkFeature {G} _ _.
Arguments feat_id {G} _.
Arguments feat_geometry {G} _.

(** The libraries the component calls, over geometries of type [G].
    - [whereNumeric]: the iso-3166-1 table (see [Leaderboard.alpha2FromNumeric]);
    - [fitExtent lo hi obj]: [geoEquirectangular().fitExtent([lo, hi], obj)],
      [None] when it throws;
    - [project], [invert]: [projection(p)] and [projection.invert(p)], [None]
      for null;
    - [centroid p feat]: [geoPath(p).centroid(feat)], [Some] exactly when the
      call returns a pair of finite numbers ([None] also when it throws);
    - [geoContains]: d3's point-in-polygon test. *)
Class GeoLib (G : Type) := {
  whereNumeric : string -> option string;
  fitExtent : Point -> Point -> G -> option Projection;
  project : Projection -> Point -> option Point;
  invert : Projection -> Point -> option Point;
  centroid : Projection -> Feature G -> option Point;
  geoContains : Feature G -> Point -> bool
}.

(** Canvas operations, in the order they are issued.  [StrokeLand] and
    [StrokeBoundaries] stand for the three glow passes drawn under the
    south-gate clip [rect(0, 0, width, yClip)]. *)
Inductive DrawOp (G : Type) :=
| ClearRect (w h : Q)
| FillBackground (w h : Q)
| StrokeLand (p : Projection) (land : G) (yClip : Q)
| StrokeBoundaries (p : Projection) (lines : G) (yClip : Q)
| FillArc (x y radius alpha : Q) (color : string)
| StrokeArc (x y radius alpha : Q) (color : string).
Arguments ClearRect {G} _ _.
Arguments FillBackground {G} _ _.
Arguments StrokeLand {G} _ _ _.
Arguments StrokeBoundaries {G} _ _ _.
Arguments FillArc {G} _ _ _ _ _.
Arguments StrokeArc {G} _ _ _ _ _.

Inductive Effect (G : Type) :=
| CountrySelect (alpha2 : string)
| Hover (code : option string) (x y : Q)
| Draw (op : DrawOp G).
Arguments CountrySelect {G} _.
Arguments Hover {G} _ _ _.
Arguments Draw {G} _.

(** The variables closed over by the effect of the component. *)
Record State (G : Type) := mkState {
  width : Q;
  height : Q;
  dpr : Q;
  canvas_width : Q;
  canvas_height : Q;
  projection : option Projection;
  landGeo : option G;
  countryLinesGeo : option G;
  countriesFC : option (list (Feature G));
  alpha2ToCentroid : list (string * Point);
  pinned : list string;
  blips : list Blip
}.
Arguments mkState {G} _ _ _ _ _ _ _ _ _ _ _ _.
Arguments width {G} _.
Arguments height {G} _.
Arguments dpr {G} _.
Arguments canvas_width {G} _.
Arguments canvas_height {G} _.
Arguments projection {G} _.
Arguments landGeo {G} _.
Arguments countryLinesGeo {G} _.
Arguments countriesFC {G} _.
Arguments alpha2ToCentroid {G} _.
Arguments pinned {G} _.
Arguments blips {G} _.

(** The viewport as [setSize] reads it: the bounding rectangle of the parent
    element (or the window's inner size) and [window.devicePixelRatio]
    ([0] when it is missing). *)
Record Viewport := mkViewport {
  rect_width : Q;
  rect_height : Q;
  devicePixelRatio : Q
}.

(** What the [try] block of [init] got done before it threw, if it did. *)
Inductive LoadResult (G : Type) :=
| LoadFailed
| LandLoaded (land : G)
| BordersLoaded (land lines : G)
| AllLoaded (land lines : G) (fc : list (Feature G)).
Arguments LoadFailed {G}.
Arguments LandLoaded {G} _.
Arguments BordersLoaded {G} _ _.
Arguments AllLoaded {G} _ _ _.

Inductive Event :=
| Resize (v : Viewport)
| Click (clientX clientY rectLeft rectTop now : Q)
| PointerMove (clientX clientY rectLeft rectTop : Q)
| PointerLeave
| PinEvent (code : option string)
| BlipEvent (detail : option (string * BlipKind)) (now : Q)
| Frame (now : Q).

(** *** [Map<string, [number, number]>] and [Set<string>], in insertion order *)

Fixpoint map_get (k : string) (m : list (string * Point)) : option Point :=
  match m with
  | [] => None
  | (k', v) :: r => if String.eqb k k' then Some v else map_get k r
  end.

Fixpoint map_set (k : string) (v : Point) (m : list (string * Point))
  : list (string * Point) :=
  match m with
  | [] => [(k, v)]
  | (k', v') :: r =>
      if String.eqb k k' then (k, v) :: r else (k', v') :: map_set k v r
  end.

Definition set_has (k : string) (s : list string) : bool :=
  existsb (String.eqb k) s.

Definition set_add (k : string) (s : list string) : list string :=
  if set_has k s then s else s ++ [k].

(** *** Field updates *)

Section Updates.
Context {G : Type}.

Definition with_projection (p : option Projection) (st : State G) : State G :=
  mkState (width st) (height st) (dpr st) (canvas_width st) (canvas_height st)
    p (landGeo st) (countryLinesGeo st) (countriesFC st)
    (alpha2ToCentroid st) (pinned st) (blips st).

Definition with_index (idx : list (string * Point)) (st : State G) : State G :=
  mkState (width st) (height st) (dpr st) (canvas_width st) (canvas_height st)
    (projection st) (landGeo st) (countryLinesGeo st) (countriesFC st)
    idx (pinned st) (blips st).

Definition with_pinned (s : list string) (st : State G) : State G :=
  mkState (width st) (height st) (dpr st) (canvas_width st) (canvas_height st)
    (projection st) (landGeo st) (countryLinesGeo st) (countriesFC st)
    (alpha2ToCentroid st) s (blips st).

Definition with_blips (bs : list Blip) (st : State G) : State G :=
  mkState (width st) (height st) (dpr st) (canvas_width st) (canvas_height st)
    (projection st) (landGeo st) (countryLinesGeo st) (countriesFC st)
    (alpha2ToCentroid st) (pinned st) bs.

Definition with_geometry (land lines : option G)
    (fc : option (list (Feature G))) (st : State G) : State G :=
  mkState (width st) (height st) (dpr st) (canvas_width st) (canvas_height st)
    (projection st) land lines fc
    (alpha2ToCentroid st) (pinned st) (blips st).

Definition emptyState : State G :=
  mkState 0 0 1 0 0 None None None None [] [] [].

End Updates.

(** *** The component *)

Section Component.
Context {G : Type} `{GeoLib G}.

(** Whether the [onCountrySelect] prop was given. *)
Variable onCountrySelect : bool.

Definition alpha2FromNumeric : option string -> option string :=
  Leaderboard.alpha2FromNumeric whereNumeric.

(** The projection block shared by [setSize] and [init]. *)
Definition fitProjection (w h : Q) (land : G) : Projection :=
  let padding := Qmax 12 (Qmin w h * 0.028) in
  match fitExtent (padding, padding) (w - padding, h - padding) land with
  | Some fitted => mkProjection (scale fitted * 1.06) (translate fitted)
  | None =>
      let s := w / (2 * Math_PI) in
      mkProjection (s * 1.06) (w / 2, h / 2)
  end.

Definition setSize (v : Viewport) (st : State G) : State G :=
  let w := inject_Z (Qfloor (rect_width v)) in
  let h := inject_Z (Qfloor (rect_height v)) in
  let ratio :=
    if Qeq_bool (devicePixelRatio v) 0 then 1 else devicePixelRatio v in
  let d := Qmax 1 (Qmin ratio 2) in
  mkState w h d
    (inject_Z (Qfloor (w * d))) (inject_Z (Qfloor (h * d)))
    match landGeo st with
    | Some land => Some (fitProjection w h land)
    | None => projection st
    end
    (landGeo st) (countryLinesGeo st) (countriesFC st)
    (alpha2ToCentroid st) (pinned st) (blips st).

(** [(feat.id != null ? String(feat.id) : '').padStart(3, '0')] *)
Definition featureNumeric (feat : Feature G) : string :=
  padStart 3 "0"%char (default EmptyString (feat_id feat)).

Definition featureAlpha2 (feat : Feature G) : option string :=
  alpha2FromNumeric (Some (featureNumeric feat)).

(** One turn of the loop of [computeCentroids]. *)
Definition indexFeature (p : Projection) (idx : list (string * Point))
    (feat : Feature G) : list (string * Point) :=
  match featureAlpha2 feat with
  | None => idx
  | Some alpha2 =>
      match centroid p feat with
      | Some c => map_set alpha2 c idx
      | None => idx
      end
  end.

Definition buildIndex (p : Projection) (fc : list (Feature G))
  : list (string * Point) :=
  fold_left (indexFeature p) fc [].

Definition computeCentroids (st : State G) : State G :=
  match projection st, countriesFC st with
  | Some p, Some fc => with_index (buildIndex p fc) st
  | _, _ => st
  end.

Definition drawGradientBackground (st : State G) : list (DrawOp G) :=
  [FillBackground (width st) (height st)].

(** [projection([0, -60])]: the south gate. *)
Definition yClip (p : Projection) (st : State G) : Q :=
  match project p (0, -60) with
  | Some southGate => snd southGate
  | None => height st
  end.

Definition drawLand (st : State G) : list (DrawOp G) :=
  match projection st, landGeo st with
  | Some p, Some land => [StrokeLand p land (yClip p st)]
  | _, _ => []
  end.

Definition drawCountryBoundaries (st : State G) : list (DrawOp G) :=
  match projection st, countryLinesGeo st with
  | Some p, Some lines => [StrokeBoundaries p lines (yClip p st)]
  | _, _ => []
  end.

(** The glow dot and the outer ring of one pin. *)
Definition pinOps (pos : Point) : list (DrawOp G) :=
  [FillArc (fst pos) (snd pos) 3.2 0.95 "#22d3ee";
   StrokeArc (fst pos) (snd pos) 6.2 0.7 "#a78bfa"].

Definition drawPin (idx : list (string * Point)) (code : string)
  : list (DrawOp G) :=
  match map_get code idx with
  | None => []
  | Some pos => pinOps pos
  end.

Definition drawPins (st : State G) : list (DrawOp G) :=
  match projection st with
  | None => []
  | Some _ => flat_map (drawPin (alpha2ToCentroid st)) (pinned st)
  end.

Definition NEW_DURATION : Q := 760.
Definition REPEAT_DURATION : Q := 420.

(** The body of the loop of [drawBlips]: [None] is the [continue] of an
    expired blip, [Some op] the shape drawn for a blip that is kept. *)
Definition drawBlip (now : Q) (b : Blip) : option (DrawOp G) :=
  let elapsed := now - blip_start b in
  match blip_kind b with
  | New =>
      if Qltb NEW_DURATION elapsed then None
      else
        let t := Qmin 1 (Qmax 0 (elapsed / NEW_DURATION)) in
        let radius := 4 + t * 18 in
        let fade := 1 - t in
        Some (FillArc (blip_x b) (blip_y b) radius fade "#ffffff")
  | Repeat =>
      if Qltb REPEAT_DURATION elapsed then None
      else
        let t := Qmin 1 (Qmax 0 (elapsed / REPEAT_DURATION)) in
        let radius := 8 + t * 12 in
        let fade := 1 - t in
        Some (StrokeArc (blip_x b) (blip_y b) radius (Qmax 0 (0.85 * fade))
                "#ffffff")
  end.

(** [drawBlips now]: the shapes drawn and [nextBlips], which replaces the
    live list. *)
Fixpoint drawBlips (now : Q) (bs : list Blip) : list (DrawOp G) * list Blip :=
  match bs with
  | [] => ([], [])
  | b :: rest =>
      let '(ops, nextBlips) := drawBlips now rest in
      match drawBlip now b with
      | None => (ops, nextBlips)
      | Some op => (op :: ops, b :: nextBlips)
      end
  end.

Definition frame (now : Q) (st : State G) : State G * list (Effect G) :=
  let '(blipOps, nextBlips) := drawBlips now (blips st) in
  (with_blips nextBlips st,
   map Draw
     ([ClearRect (width st) (height st)]
        ++ drawGradientBackground st
        ++ drawLand st
        ++ drawCountryBoundaries st
        ++ drawPins st
        ++ blipOps)).

Definition onResize (v : Viewport) (st : State G) : State G :=
  computeCentroids (setSize v st).

Definition onClick (clientX clientY rectLeft rectTop now : Q) (st : State G)
  : State G * list (Effect G) :=
  match projection st, countriesFC st with
  | Some p, Some fc =>
      let x := clientX - rectLeft in
      let y := clientY - rectTop in
      match invert p (x, y) with
      | None => (st, [])
      | Some lonlat =>
          match find (fun feat => geoContains feat lonlat) fc with
          | None => (st, [])
          | Some matched =>
              match alpha2FromNumeric (Some (featureNumeric matched)) with
              | None => (st, [])
              | Some alpha2 =>
                  let pos := default (x, y) (map_get alpha2 (alpha2ToCentroid st)) in
                  (with_blips
                     (blips st ++ [mkBlip (fst pos) (snd pos) New now]) st,
                   if onCountrySelect then [CountrySelect alpha2] else [])
              end
          end
      end
  | _, _ => (st, [])
  end.

Definition dispatchHover (code : option string) (x y : Q) : list (Effect G) :=
  [Hover code x y].

(** One turn of the nearest-centroid loop of [onPointerMove]. *)
Definition nearer (mx my : Q) (nearest : option (string * Q))
    (entry : string * Point) : option (string * Q) :=
  let dx := fst (snd entry) - mx in
  let dy := snd (snd entry) - my in
  let d2 := dx * dx + dy * dy in
  match nearest with
  | None => Some (fst entry, d2)
  | Some (_, nd2) => if Qltb d2 nd2 then Some (fst entry, d2) else nearest
  end.

Definition nearestCentroid (mx my : Q) (idx : list (string * Point))
  : option (string * Q) :=
  fold_left (nearer mx my) idx None.

Definition threshold : Q := 20.

Definition onPointerMove (clientX clientY rectLeft rectTop : Q) (st : State G)
  : list (Effect G) :=
  match projection st, alpha2ToCentroid st with
  | None, _ => []
  | Some _, [] => []
  | Some _, idx =>
      let mx := clientX - rectLeft in
      let my := clientY - rectTop in
      match nearestCentroid mx my idx with
      | Some (code, d2) =>
          if sqrt_leb d2 threshold then dispatchHover (Some code) mx my
          else dispatchHover None mx my
      | None => dispatchHover None mx my
      end
  end.

Definition onPointerLeave : list (Effect G) := dispatchHover None (-1) (-1).

Definition onPin (code : option string) (st : State G) : State G :=
  match code with
  | None => st
  | Some c =>
      if truthy c then with_pinned (set_add (toUpperCase c) (pinned st)) st
      else st
  end.

Definition hasAlpha2 (code : string) (feat : Feature G) : bool :=
  match featureAlpha2 feat with
  | Some a2 => String.eqb a2 code
  | None => false
  end.

Definition onBlip (detail : option (string * BlipKind)) (now : Q)
    (st : State G) : State G :=
  match detail with
  | None => st
  | Some (c, k) =>
      let code := toUpperCase c in
      match map_get code (alpha2ToCentroid st) with
      | Some pos =>
          with_blips (blips st ++ [mkBlip (fst pos) (snd pos) k now]) st
      | None =>
          match projection st, countriesFC st with
          | Some p, Some fc =>
              match find (hasAlpha2 code) fc with
              | Some feat =>
                  match centroid p feat with
                  | Some pos =>
                      let st' :=
                        with_index (map_set code pos (alpha2ToCentroid st)) st in
                      with_blips
                        (blips st' ++ [mkBlip (fst pos) (snd pos) k now]) st'
                  | None => st
                  end
              | None => st
              end
          | _, _ => st
          end
      end
  end.

(** [init]: the first [setSize], the load, the second [setSize], the
    projection block, [computeCentroids].  The handlers are registered and the
    first frame is requested only after that. *)
Definition loaded (load : LoadResult G) (st : State G) : State G :=
  match load with
  | LoadFailed => st
  | LandLoaded land => with_geometry (Some land) None None st
  | BordersLoaded land lines => with_geometry (Some land) (Some lines) None st
  | AllLoaded land lines fc =>
      with_geometry (Some land) (Some lines) (Some fc) st
  end.

Definition init (v0 v1 : Viewport) (load : LoadResult G) : State G :=
  let st := setSize v1 (loaded load (setSize v0 emptyState)) in
  let st :=
    match landGeo st with
    | Some land =>
        with_projection (Some (fitProjection (width st) (height st) land)) st
    | None => st
    end in
  computeCentroids st.

Definition step (st : State G) (ev : Event) : State G * list (Effect G) :=
  match ev with
  | Resize v => (onResize v st, [])
  | Click cx cy l t now => onClick cx cy l t now st
  | PointerMove cx cy l t => (st, onPointerMove cx cy l t st)
  | PointerLeave => (st, onPointerLeave)
  | PinEvent code => (onPin code st, [])
  | BlipEvent detail now => (onBlip detail now st, [])
  | Frame now => frame now st
  end.

(** The state after a sequence of events. *)
Definition run (st : State G) (evs : list Event) : State G :=
  fold_left (fun s ev => fst (step s ev)) evs st.

(** Every effect emitted along a sequence of events. *)
Fixpoint trace (st : State G) (evs : list Event) : list (Effect G) :=
  match evs with
  | [] => []
  | ev :: rest => snd (step st ev) ++ trace (fst (step st ev)) rest
  end.

End Component.

(** *** Notions used in the statements *)

Definition duration (k : BlipKind) : Q :=
  match k with
  | New => NEW_DURATION
  | Repeat => REPEAT_DURATION
  end.

Definition elapsed (now : Q) (b : Blip) : Q := now - blip_start b.

(** The test of [drawBlips] that keeps a blip: not [elapsed > duration]. *)
Definition live (now : Q) (b : Blip) : bool :=
  negb (Qltb (duration (blip_kind b)) (elapsed now b)).

(** The reading of [performance.now()] an event carries, if it takes one. *)
Definition event_time (ev : Event) : option Q :=
  match ev with
  | Click _ _ _ _ now => Some now
  | BlipEvent _ now => Some now
  | Frame now => Some now
  | _ => None
  end.

Definition not_before (T : Q) (ev : Event) : Prop :=
  match event_time ev with
  | Some now => T <= now
  | None => True
  end.

(** Squared distance from the pointer to a centroid. *)
Definition dist2 (mx my : Q) (c : Point) : Q :=
  (fst c - mx) * (fst c - mx) + (snd c - my) * (snd c - my).

Definition keys (m : list (string * Point)) : list string := map fst m.

(** What the loop of [onPointerMove] holds after the entries [seen]. *)
Definition nearest_of (mx my : Q) (seen : list (string * Point))
    (nearest : option (string * Q)) : Prop :=
  match nearest with
  | None => seen = []
  | Some (code, d2) =>
      exists c, In (code, c) seen /\ d2 = dist2 mx my c
                /\ forall k' c', In (k', c') seen -> d2 <= dist2 mx my c'
  end.

Definition is_pointer_move (ev : Event) : bool :=
  match ev with
  | PointerMove _ _ _ _ => true
  | _ => false
  end.

(** The load threw before the feature collection was assigned. *)
Definition failed {G : Type} (load : LoadResult G) : Prop :=
  match load with
  | AllLoaded _ _ _ => False
  | _ => True
  end.

(** The canvas operations of a frame that shows the background alone. *)
Definition backgroundOnly {G : Type} (st : State G) : list (Effect G) :=
  map Draw [ClearRect (width st) (height st);
            FillBackground (width st) (height st)].

(** The index that [computeCentroids] builds from the projection and the
    feature collection of a state; empty when either is missing. *)
Definition currentIndex {G : Type} `{GeoLib G} (st : State G)
  : list (string * Point) :=
  match projection st, countriesFC st with
  | Some p, Some fc => buildIndex p fc
  | _, _ => []
  end.

(** What holds of the state between any two events. *)
Definition coherent {G : Type} `{GeoLib G} (st : State G) : Prop :=
  alpha2ToCentroid st = currentIndex st
  /\ (landGeo st = None -> projection st = None)
  /\ (countriesFC st = None -> blips st = []).

(** The projection is the one [setSize] fits to the current size and land;
    there is none without land. *)
Definition fitted {G : Type} `{GeoLib G} (st : State G) : Prop :=
  projection st
  = match landGeo st with
    | Some land => Some (fitProjection (width st) (height st) land)
    | None => None
    end.

(** What a frame strokes of the geometry a failed load left behind. *)
Definition leftover {G : Type} `{GeoLib G} (load : LoadResult G)
    (st : State G) : list (DrawOp G) :=
  match load with
  | LandLoaded land =>
      let p := fitProjection (width st) (height st) land in
      [StrokeLand p land (yClip p st)]
  | BordersLoaded land lines =>
      let p := fitProjection (width st) (height st) land in
      [StrokeLand p land (yClip p st); StrokeBoundaries p lines (yClip p st)]
  | _ => []
  end.

End World.

(** ** A small concrete world

    Geometries are longitude/latitude boxes; the projection is linear in
    degrees.  It instantiates [World.GeoLib] for the examples below. *)

Module Toy.
Import World.

Open Scope Q_scope.

Record Box := mkBox { lon0 : Q; lat0 : Q; lon1 : Q; lat1 : Q }.

Definition table (n : string) : option string :=
  if String.eqb n "840" then Some "US"%string
  else if String.eqb n "250" then Some "FR"%string
  else if String.eqb n "076" then Some "BR"%string
  else None.

Definition fit (lo hi : Point) (land : Box) : option Projection :=
  if Qltb (lon0 land) (lon1 land)
  then Some (mkProjection ((fst hi - fst lo) / (lon1 land - lon0 land))
               ((fst lo + fst hi) / 2, (snd lo + snd hi) / 2))
  else None.

Definition apply (p : Projection) (ll : Point) : option Point :=
  Some (Qred (fst (translate p) + scale p * fst ll),
        Qred (snd (translate p) - scale p * snd ll)).

Definition unapply (p : Projection) (xy : Point) : option Point :=
  if Qeq_bool (scale p) 0 then None
  else Some (Qred ((fst xy - fst (translate p)) / scale p),
             Qred ((snd (translate p) - snd xy) / scale p)).

Definition middle (p : Projection) (feat : Feature Box) : option Point :=
  let b := feat_geometry feat in
  if Qltb (lon0 b) (lon1 b)
  then apply p ((lon0 b + lon1 b) / 2, (lat0 b + lat1 b) / 2)
  else None.

Definition inside (feat : Feature Box) (ll : Point) : bool :=
  let b := feat_geometry feat in
  Qle_bool (lon0 b) (fst ll) && Qle_bool (fst ll) (lon1 b)
  && Qle_bool (lat0 b) (snd ll) && Qle_bool (snd ll) (lat1 b).

#[global] Instance lib : GeoLib Box :=
  {| whereNumeric := table;
     fitExtent := fit;
     project := apply;
     invert := unapply;
     centroid := middle;
     geoContains := inside |}.

Definition land : Box := mkBox (-180) (-90) 180 90.
Definition lines : Box := mkBox (-180) (-90) 180 90.

Definition usa : Feature Box := mkFeature (Some "840"%string) (mkBox (-120) 30 (-80) 50).
Definition france : Feature Box := mkFeature (Some "250"%string) (mkBox 0 42 8 50).
Definition brazil : Feature Box := mkFeature (Some "76"%string) (mkBox (-70) (-30) (-40) 0).
Definition unnamed : Feature Box := mkFeature None (mkBox 30 30 40 40).

Definition countries : list (Feature Box) := [usa; france; brazil; unnamed].

Definition viewport : Viewport := mkViewport 800.5 400.25 1.
Definition wide : Viewport := mkViewport 1600 800 2.

Definition world : State Box :=
  init viewport viewport (AllLoaded land lines countries).

(** The world after a click on the United States at time 1000. *)
Definition clicked : State Box :=
  run true world [Click 172 108 0 0 1000].

End Toy.

(** ** The page: what it feeds the map

    From [Index]: the counts fetched on mount and the effect that pins every
    country with at least ten clicks. *)

Module Page.

Open Scope Q_scope.

(** [map[code] = v] on an object whose keys are not integer-like: the key keeps
    its place when present and is appended when new. *)
Fixpoint obj_set (k : string) (v : Q) (o : list (string * Q))
  : list (string * Q) :=
  match o with
  | [] => [(k, v)]
  | (k', v') :: r =>
      if String.eqb k k' then (k, v) :: r else (k', v') :: obj_set k v r
  end.

(** The loop of [fetchAll] over the rows [(country_code, Number(clicks) || 0)]. *)
Definition countsFromRows (rows : list (option string * Q))
  : list (string * Q) :=
  fold_left
    (fun map row =>
       match Leaderboard.normalizeCountryCode (fst row) with
       | Some code => obj_set code (snd row) map
       | None => map
       end)
    rows [].

(** The pin effect: one [world:pin] event for every entry of [counts] with
    [Number(clicks) >= 10], in the order of [Object.entries]. *)
Definition pinEffect (counts : list (string * Q)) : list World.Event :=
  flat_map
    (fun entry =>
       if Qle_bool 10 (snd entry) then [World.PinEvent (Some (fst entry))]
       else [])
    counts.

End Page.

(** * Properties *)

(** ** Strings *)

Section StringFacts.

Lemma test_AZ2_truthy (s : string) :
  test_AZ2 (toUpperCase (trim s)) = true -> truthy s = true.
Proof. destruct s; [discriminate | reflexivity]. Qed.

Lemma truthy_toUpperCase (s : string) : truthy (toUpperCase s) = truthy s.
Proof. destruct s; reflexivity. Qed.

Lemma upper_char_idem (c : ascii) : upper_char (upper_char c) = upper_char c.
Proof.
  destruct c as [[] [] [] [] [] [] [] []]; reflexivity.
Qed.

Lemma toUpperCase_idem (s : string) : toUpperCase (toUpperCase s) = toUpperCase s.
Proof.
  induction s as [|c s IH]; simpl; [reflexivity|].
  rewrite upper_char_idem, IH. reflexivity.
Qed.

End StringFacts.

(** ** leaderboard.ts *)

Section LeaderboardFacts.
Import Leaderboard.

Lemma normalizeCountryCode_Some (s cc : string) :
  normalizeCountryCode (Some s) = Some cc <->
  test_AZ2 (toUpperCase (trim s)) = true /\ cc = toUpperCase (trim s).
Proof.
  unfold normalizeCountryCode. split.
  - destruct (truthy s); [|discriminate].
    destruct (test_AZ2 (toUpperCase (trim s))) eqn:E; [|discriminate].
    intros [= <-]. split; reflexivity.
  - intros [Ht ->]. rewrite (test_AZ2_truthy _ Ht), Ht. reflexivity.
Qed.

Lemma normalizeCountryCode_None (s : string) :
  test_AZ2 (toUpperCase (trim s)) = false -> normalizeCountryCode (Some s) = None.
Proof.
  unfold normalizeCountryCode. intros ->. destruct (truthy s); reflexivity.
Qed.

(** C10. An input that does not normalise (trimmed, upper-cased) to two
    upper-case ASCII letters changes nothing: the stored counts are not
    written and no update event is emitted.  For an input that does
    normalise, the counts handed to [setCounts] are the stored ones with the
    count of the normalised code (0 when it had none) increased by the delta,
    or by 1 when the delta is omitted or not finite, the other codes
    untouched; where the window's storage accepts the write, these counts are
    stored and one update event is emitted. *)
Theorem incrementCountry_spec (code : string) (delta : option Delta) (w : Window) :
  (test_AZ2 (toUpperCase (trim code)) = false ->
     incrementCountry code delta w = (w, []))
  /\
  (test_AZ2 (toUpperCase (trim code)) = true ->
     let cc := toUpperCase (trim code) in
     let d := match delta with Some (Finite q) => q | _ => 1%Q end in
     let old := default 0%Q (getCounts w !! cc) in
     exists next,
       incrementCountry code delta w = setCounts next w
       /\ next !! cc = Some (old + d)%Q
       /\ (forall k, k <> cc -> next !! k = getCounts w !! k)
       /\ (forall ls, w = Some ls -> writable ls = true ->
             incrementCountry code delta w
             = (Some (mkStorage (Some next) true), [LeaderboardUpdate]))).
Proof.
  split.
  - intros Hbad. unfold incrementCountry.
    rewrite (normalizeCountryCode_None _ Hbad). reflexivity.
  - intros Hok cc d old. unfold incrementCountry.
    assert (Hn : normalizeCountryCode (Some code) = Some cc)
      by (apply normalizeCountryCode_Some; split; [exact Hok | reflexivity]).
    rewrite Hn. cbn zeta.
    assert (Hd : increment_of delta = d)
      by (subst d; destruct delta as [[q|]|]; reflexivity).
    rewrite Hd. fold old.
    exists (<[cc := (old + d)%Q]> (getCounts w)).
    split; [reflexivity|]. split; [apply lookup_insert_eq|]. split.
    + intros k Hk. rewrite lookup_insert_ne by congruence. reflexivity.
    + intros ls -> Hw. cbn [setCounts]. rewrite Hw. reflexivity.
Qed.

Lemma incrementCountry_spec_witness :
  incrementCountry "12" (Some (Finite 5)) (Some (mkStorage None true))
    = (Some (mkStorage None true), [])
  /\ exists next,
       incrementCountry " us " (Some NotFinite)
         (Some (mkStorage (Some {[ "US"%string := 4%Q ]}) true))
         = (Some (mkStorage (Some next) true), [LeaderboardUpdate])
       /\ next !! "US"%string = Some (4 + 1)%Q.
Proof.
  split.
  - apply (proj1 (incrementCountry_spec "12" (Some (Finite 5))
                    (Some (mkStorage None true)))).
    reflexivity.
  - destruct (proj2 (incrementCountry_spec " us " (Some NotFinite)
                       (Some (mkStorage (Some {[ "US"%string := 4%Q ]}) true)))
                eq_refl) as (next & _ & Hcc & _ & Hstore).
    exists next. split; [exact (Hstore _ eq_refl eq_refl) | exact Hcc].
Defined.

End LeaderboardFacts.

(** ** Rational comparisons *)

Section QFacts.
Import World.
Open Scope Q_scope.

Lemma Qltb_true (a b : Q) : Qltb a b = true <-> a < b.
Proof.
  unfold Qltb. rewrite negb_true_iff. split.
  - intros Hf. apply Qnot_le_lt. intros Hle.
    apply Qle_bool_iff in Hle. congruence.
  - intros Hlt. destruct (Qle_bool b a) eqn:E; [|reflexivity].
    apply Qle_bool_iff in E. exfalso. exact (Qlt_not_le _ _ Hlt E).
Qed.

Lemma Qltb_false (a b : Q) : Qltb a b = false <-> b <= a.
Proof.
  unfold Qltb. rewrite negb_false_iff. apply Qle_bool_iff.
Qed.

Lemma Qdiv_le_1 (e d : Q) : 0 < d -> e / d <= 1 -> e <= d.
Proof.
  intros Hd He.
  assert (Heq : e == (e / d) * d).
  { field. intros Hz. rewrite Hz in Hd. exact (Qlt_irrefl _ Hd). }
  assert (Hm : (e / d) * d <= 1 * d)     by (apply Qmult_le_compat_r; [exact He | apply Qlt_le_weak; exact Hd]).
  rewrite Heq. apply (Qle_trans _ _ _ Hm). rewrite Qmult_1_l. apply Qle_refl.
Qed.

Lemma clamp_unit (t : Q) : 0 <= t -> t <= 1 -> Qmin 1 (Qmax 0 t) == t.
Proof.
  intros H0 H1. rewrite Q.max_r by exact H0. rewrite Q.min_r by exact H1.
  reflexivity.
Qed.

(** The threshold test on squares is the test on the Euclidean distance. *)
Lemma sqrt_leb_real (d2 th : Q) :
  0 <= d2 -> 0 <= th ->
  (sqrt_leb d2 th = true <-> (sqrt (Q2R d2) <= Q2R th)%R).
Proof.
  intros Hd Ht. unfold sqrt_leb. rewrite Qle_bool_iff.
  apply Qle_Rle in Hd. apply Qle_Rle in Ht.
  replace (Q2R 0) with 0%R in Hd, Ht by (unfold Q2R; simpl; Lra.lra).
  split.
  - intros Hle. apply Qle_Rle in Hle. rewrite Q2R_mult in Hle.
    rewrite <- (sqrt_square (Q2R th)) by exact Ht.
    apply sqrt_le_1_alt. exact Hle.
  - intros Hle. apply Rle_Qle. rewrite Q2R_mult.
    rewrite <- (sqrt_sqrt (Q2R d2)) by exact Hd.
    apply Rmult_le_compat; try apply sqrt_pos; exact Hle.
Qed.

End QFacts.

(** ** The effect scheduler *)

Section BlipFacts.
Import World.
Open Scope Q_scope.
Context {G : Type}.

Lemma drawBlip_live (now : Q) (b : Blip) :
  is_Some (drawBlip (G:=G) now b) <-> elapsed now b <= duration (blip_kind b).
Proof.
  unfold drawBlip, elapsed, duration. destruct (blip_kind b).
  - destruct (Qltb NEW_DURATION (now - blip_start b)) eqn:E.
    + apply Qltb_true in E. split; [intros [? [=]] | intros; exfalso; lra].
    + apply Qltb_false in E. split; [intros; exact E | eauto].
  - destruct (Qltb REPEAT_DURATION (now - blip_start b)) eqn:E.
    + apply Qltb_true in E. split; [intros [? [=]] | intros; exfalso; lra].
    + apply Qltb_false in E. split; [intros; exact E | eauto].
Qed.

Lemma drawBlips_next (now : Q) (bs : list Blip) (b : Blip) :
  In b (snd (drawBlips (G:=G) now bs)) <->
  In b bs /\ elapsed now b <= duration (blip_kind b).
Proof.
  induction bs as [|a rest IH]; simpl.
  - tauto.
  - destruct (drawBlips now rest) as [ops next] eqn:E. simpl in IH.
    destruct (drawBlip (G:=G) now a) as [op|] eqn:Ea; simpl.
    + rewrite IH. split.
      * intros [->|[Hin Hle]]; [|tauto].
        split; [tauto|]. apply drawBlip_live. rewrite Ea. eauto.
      * tauto.
    + rewrite IH. split; [tauto|].
      intros [[->|Hin] Hle]; [|tauto].
      apply drawBlip_live in Hle. rewrite Ea in Hle. destruct Hle as [? [=]].
Qed.

Lemma drawBlips_draws (now : Q) (bs : list Blip) (b : Blip) (op : DrawOp G) :
  In b bs -> drawBlip now b = Some op -> In op (fst (drawBlips now bs)).
Proof.
  induction bs as [|a rest IH]; simpl; [tauto|].
  intros [->|Hin] Hop.
  - destruct (drawBlips now rest) as [ops next]. rewrite Hop. simpl. tauto.
  - specialize (IH Hin Hop).
    destruct (drawBlips now rest) as [ops next]. simpl in IH.
    destruct (drawBlip now a); simpl; tauto.
Qed.

(** C3. A live blip of kind [new] whose progress t = elapsed/760 lies in
    [0,1] is drawn as a filled circle of radius 4 + 18 t and opacity 1 - t
    (4 and 1 at t = 0, 22 and 0 at t = 1); one of kind [repeat], with
    t = elapsed/420, as a stroked circle of radius 8 + 12 t and opacity
    0.85 (1 - t) (8 and 0.85 at t = 0, 20 and 0 at t = 1). *)
Theorem blip_radius_opacity (now : Q) (b : Blip) (bs : list Blip) :
  In b bs ->
  (blip_kind b = New ->
   let t := elapsed now b / 760 in
   0 <= t <= 1 ->
   exists radius alpha,
     In (FillArc (G:=G) (blip_x b) (blip_y b) radius alpha "#ffffff")
        (fst (drawBlips now bs))
     /\ radius == 4 + 18 * t /\ alpha == 1 - t
     /\ (t == 0 -> radius == 4 /\ alpha == 1)
     /\ (t == 1 -> radius == 22 /\ alpha == 0))
  /\
  (blip_kind b = Repeat ->
   let t := elapsed now b / 420 in
   0 <= t <= 1 ->
   exists radius alpha,
     In (StrokeArc (G:=G) (blip_x b) (blip_y b) radius alpha "#ffffff")
        (fst (drawBlips now bs))
     /\ radius == 8 + 12 * t /\ alpha == 0.85 * (1 - t)
     /\ (t == 0 -> radius == 8 /\ alpha == 0.85)
     /\ (t == 1 -> radius == 20 /\ alpha == 0)).
Proof.
  intros Hin. split; intros Hk t [H0 H1].
  - assert (Hlive : Qltb NEW_DURATION (now - blip_start b) = false).
    { apply Qltb_false. apply Qdiv_le_1; [reflexivity | exact H1]. }
    assert (Hop : drawBlip (G:=G) now b
                  = Some (FillArc (blip_x b) (blip_y b)
                            (4 + Qmin 1 (Qmax 0 t) * 18)
                            (1 - Qmin 1 (Qmax 0 t)) "#ffffff")).
    { unfold drawBlip. rewrite Hk, Hlive. reflexivity. }
    eexists _, _. split; [exact (drawBlips_draws _ _ _ _ Hin Hop)|].
    clearbody t. rewrite (clamp_unit t H0 H1).
    split; [ring|]. split; [ring|].
    split; intros Ht; rewrite Ht; split; ring.
  - assert (Hlive : Qltb REPEAT_DURATION (now - blip_start b) = false).
    { apply Qltb_false. apply Qdiv_le_1; [reflexivity | exact H1]. }
    assert (Hop : drawBlip (G:=G) now b
                  = Some (StrokeArc (blip_x b) (blip_y b)
                            (8 + Qmin 1 (Qmax 0 t) * 12)
                            (Qmax 0 (0.85 * (1 - Qmin 1 (Qmax 0 t))))
                            "#ffffff")).
    { unfold drawBlip. rewrite Hk, Hlive. reflexivity. }
    eexists _, _. split; [exact (drawBlips_draws _ _ _ _ Hin Hop)|].
    clearbody t. rewrite (clamp_unit t H0 H1).
    rewrite Q.max_r by lra.
    split; [ring|]. split; [ring|].
    split; intros Ht; rewrite Ht; split; ring.
Qed.

End BlipFacts.

Lemma blip_radius_opacity_witness :
  (exists radius alpha,
     In (World.FillArc (G:=unit) 10 20 radius alpha "#ffffff")
        (fst (World.drawBlips 1380 [World.mkBlip 10 20 World.New 1000]))
     /\ radius == 4 + 18 * (380 / 760) /\ alpha == 1 - 380 / 760)%Q
  /\
  (exists radius alpha,
     In (World.StrokeArc (G:=unit) 5 6 radius alpha "#ffffff")
        (fst (World.drawBlips 420 [World.mkBlip 5 6 World.Repeat 0]))
     /\ radius == 20 /\ alpha == 0)%Q.
Proof.
  split.
  - destruct (proj1 (blip_radius_opacity (G:=unit) 1380
                       (World.mkBlip 10 20 World.New 1000)
                       [World.mkBlip 10 20 World.New 1000]
                       (or_introl eq_refl)) eq_refl)
      as (r & a & Hin & Hr & Ha & _).
    + split; vm_compute; discriminate.
    + exists r, a. split; [exact Hin|]. split; [exact Hr | exact Ha].
  - destruct (proj2 (blip_radius_opacity (G:=unit) 420
                       (World.mkBlip 5 6 World.Repeat 0)
                       [World.mkBlip 5 6 World.Repeat 0]
                       (or_introl eq_refl)) eq_refl)
      as (r & a & Hin & _ & _ & _ & H1).
    + split; vm_compute; discriminate.
    + exists r, a. split; [exact Hin|]. apply H1. reflexivity.
Defined.

(** ** The component as a state machine *)

Section MachineFacts.
Import World.
Open Scope Q_scope.
Context {G : Type} `{GeoLib G}.
Variable onCountrySelect : bool.

Abbreviation step := (World.step onCountrySelect).
Abbreviation run := (World.run onCountrySelect).

Lemma run_nil (st : State G) : run st [] = st.
Proof. reflexivity. Qed.

Lemma run_cons (st : State G) (ev : Event) (evs : list Event) :
  run st (ev :: evs) = run (fst (step st ev)) evs.
Proof. reflexivity. Qed.

Lemma frame_blips (now : Q) (st : State G) :
  blips (fst (frame now st)) = snd (drawBlips (G:=G) now (blips st)).
Proof.
  unfold frame. destruct (drawBlips now (blips st)). reflexivity.
Qed.

Lemma frame_ops (now : Q) (st : State G) :
  snd (frame now st)
  = map Draw ([ClearRect (width st) (height st)]
                ++ drawGradientBackground st ++ drawLand st
                ++ drawCountryBoundaries st ++ drawPins st
                ++ fst (drawBlips now (blips st))).
Proof.
  unfold frame. destruct (drawBlips now (blips st)). reflexivity.
Qed.

Lemma computeCentroids_blips (st : State G) :
  blips (computeCentroids st) = blips st.
Proof.
  unfold computeCentroids.
  destruct (projection st), (countriesFC st); reflexivity.
Qed.

(** A blip in the list after an event was there before, or was pushed by the
    event with the event's clock reading as its start. *)
Lemma step_blips (st : State G) (ev : Event) (b : Blip) :
  In b (blips (fst (step st ev))) ->
  In b (blips st) \/ event_time ev = Some (blip_start b).
Proof.
  destruct ev as [v|cx cy l t now|cx cy l t| |code|detail now|now]; simpl.
  - unfold onResize. rewrite computeCentroids_blips. tauto.
  - unfold onClick.
    destruct (projection st); [|tauto].
    destruct (countriesFC st); [|tauto].
    destruct (invert _ _); [|tauto].
    destruct (find _ _); [|tauto].
    destruct (alpha2FromNumeric _); [|tauto].
    simpl. rewrite in_app_iff. simpl.
    intros [Hin|[<-|[]]]; [tauto | right; reflexivity].
  - tauto.
  - tauto.
  - unfold onPin. destruct code as [c|]; [|tauto].
    destruct (truthy c); simpl; tauto.
  - unfold onBlip. destruct detail as [[c k]|]; [|tauto].
    destruct (map_get _ _).
    + simpl. rewrite in_app_iff. simpl.
      intros [Hin|[<-|[]]]; [tauto | right; reflexivity].
    + destruct (projection st); [|tauto].
      destruct (countriesFC st); [|tauto].
      destruct (find _ _); [|tauto].
      destruct (centroid _ _); [|tauto].
      simpl. rewrite in_app_iff. simpl.
      intros [Hin|[<-|[]]]; [tauto | right; reflexivity].
  - rewrite frame_blips. intros Hin. apply drawBlips_next in Hin. tauto.
Qed.

Lemma duration_pos (k : BlipKind) : 0 < duration k.
Proof. destruct k; reflexivity. Qed.

Lemma run_no_revival (T : Q) (b : Blip) (evs : list Event) (st : State G) :
  blip_start b < T ->
  Forall (not_before T) evs ->
  ~ In b (blips st) ->
  ~ In b (blips (run st evs)).
Proof.
  intros Hold. revert st.
  induction evs as [|ev evs IH]; intros st Hall Hout; [exact Hout|].
  rewrite run_cons. inversion Hall as [|? ? Hev Hrest]; subst.
  apply IH; [exact Hrest|].
  intros Hin. apply step_blips in Hin. destruct Hin as [Hin|Htime]; [tauto|].
  unfold not_before in Hev. rewrite Htime in Hev. lra.
Qed.

(** C4. On a scheduler pass at time [T], a blip of the live list whose
    elapsed time does not exceed its kind's duration (760 for [new], 420 for
    [repeat]) stays in the list and is drawn; one whose elapsed time exceeds it
    is not in the list after the pass, and is in the list after no later
    sequence of events (clicks, blip requests, passes, ...) whose clock
    readings are not before [T]; a pass adds no blip. *)
Theorem blip_lifetime (st : State G) (T : Q) (b : Blip) :
  (In b (blips st) -> elapsed T b <= duration (blip_kind b) ->
     In b (blips (fst (frame T st)))
     /\ exists op, drawBlip T b = Some op /\ In (Draw op) (snd (frame T st)))
  /\
  (duration (blip_kind b) < elapsed T b ->
     ~ In b (blips (fst (frame T st)))
     /\ forall evs, Forall (not_before T) evs ->
          ~ In b (blips (run (fst (frame T st)) evs)))
  /\
  (forall b', In b' (blips (fst (frame T st))) -> In b' (blips st)).
Proof.
  split; [|split].
  - intros Hin Hle. split.
    + rewrite frame_blips. apply drawBlips_next. tauto.
    + destruct (proj2 (drawBlip_live (G:=G) T b) Hle) as [op Hop].
      exists op. split; [exact Hop|].
      rewrite frame_ops. apply in_map. rewrite !in_app_iff.
      do 5 right. exact (drawBlips_draws _ _ _ _ Hin Hop).
  - intros Hexp.
    assert (Hout : ~ In b (blips (fst (frame T st)))).
    { rewrite frame_blips. intros Hin. apply drawBlips_next in Hin. lra. }
    split; [exact Hout|].
    intros evs Hall. apply (run_no_revival T); [|exact Hall|exact Hout].
    pose proof (duration_pos (blip_kind b)). unfold elapsed in Hexp. lra.
  - intros b'. rewrite frame_blips. intros Hin.
    apply drawBlips_next in Hin. tauto.
Qed.

End MachineFacts.

Lemma blip_lifetime_witness :
  let b := World.mkBlip (7718 # 45) (24436 # 225) World.New 1000 in
  In b (World.blips (fst (World.frame 1500 Toy.clicked)))
  /\ ~ In b (World.blips
               (World.run true (fst (World.frame 2000 Toy.clicked))
                  [World.Click 172 108 0 0 2100; World.Frame 2200])).
Proof.
  intros b.
  destruct (blip_lifetime (H:=Toy.lib) true Toy.clicked 1500 b) as [Hkeep _].
  destruct (blip_lifetime (H:=Toy.lib) true Toy.clicked 2000 b)
    as [_ [Hdrop _]].
  split.
  - apply Hkeep.
    + vm_compute. left. reflexivity.
    + vm_compute. discriminate.
  - apply Hdrop.
    + vm_compute. reflexivity.
    + repeat constructor; vm_compute; discriminate.
Defined.

(** ** The centroid index *)

Section IndexFacts.
Import World.
Open Scope Q_scope.
Context {G : Type} `{GeoLib G}.

Lemma map_get_set_eq (k : string) (v : Point) (m : list (string * Point)) :
  map_get k (map_set k v m) = Some v.
Proof.
  induction m as [|[k' v'] r IH]; simpl.
  - rewrite String.eqb_refl. reflexivity.
  - destruct (String.eqb k k') eqn:E; simpl.
    + rewrite String.eqb_refl. reflexivity.
    + rewrite E. exact IH.
Qed.

Lemma map_get_set_ne (k k' : string) (v : Point) (m : list (string * Point)) :
  k <> k' -> map_get k' (map_set k v m) = map_get k' m.
Proof.
  intros Hne. induction m as [|[k0 v0] r IH]; simpl.
  - destruct (String.eqb k' k) eqn:E; [|reflexivity].
    apply String.eqb_eq in E. congruence.
  - destruct (String.eqb k k0) eqn:E; simpl.
    + apply String.eqb_eq in E. subst k0.
      destruct (String.eqb k' k) eqn:E'; [|reflexivity].
      apply String.eqb_eq in E'. congruence.
    + destruct (String.eqb k' k0); [reflexivity | exact IH].
Qed.

Lemma map_get_keys (k : string) (m : list (string * Point)) :
  is_Some (map_get k m) <-> In k (keys m).
Proof.
  induction m as [|[k' v'] r IH]; simpl.
  - split; [intros [? [=]] | tauto].
  - destruct (String.eqb k k') eqn:E.
    + apply String.eqb_eq in E. subst. split; eauto.
    + rewrite IH. split; [tauto|]. intros [->|Hin]; [|exact Hin].
      rewrite String.eqb_refl in E. discriminate.
Qed.

(** Where an entry of the index built by the loop comes from. *)
Lemma fold_index_origin (p : Projection) (fc : list (Feature G))
    (idx : list (string * Point)) (k : string) (c : Point) :
  map_get k (fold_left (indexFeature p) fc idx) = Some c ->
  map_get k idx = Some c
  \/ exists feat, In feat fc /\ featureAlpha2 feat = Some k
                  /\ centroid p feat = Some c.
Proof.
  revert idx. induction fc as [|feat rest IH]; intros idx; simpl; [tauto|].
  intros Hget. destruct (IH _ Hget) as [Hidx|(f & Hin & Ha & Hc)].
  - unfold indexFeature in Hidx.
    destruct (featureAlpha2 feat) as [a2|] eqn:Ea; [|tauto].
    destruct (centroid p feat) as [c'|] eqn:Ec; [|tauto].
    destruct (String.eqb a2 k) eqn:E.
    + apply String.eqb_eq in E. subst a2.
      rewrite map_get_set_eq in Hidx. injection Hidx as <-.
      right. exists feat. tauto.
    + rewrite map_get_set_ne in Hidx; [tauto|].
      intros ->. rewrite String.eqb_refl in E. discriminate.
  - right. exists f. tauto.
Qed.

(** An entry, once in the index, keeps its key through the loop. *)
Lemma fold_index_keeps (p : Projection) (fc : list (Feature G))
    (idx : list (string * Point)) (k : string) :
  is_Some (map_get k idx) ->
  is_Some (map_get k (fold_left (indexFeature p) fc idx)).
Proof.
  revert idx. induction fc as [|feat rest IH]; intros idx Hk; simpl; [exact Hk|].
  apply IH. unfold indexFeature.
  destruct (featureAlpha2 feat) as [a2|]; [|exact Hk].
  destruct (centroid p feat) as [c'|]; [|exact Hk].
  destruct (String.eqb a2 k) eqn:E.
  - apply String.eqb_eq in E. subst. rewrite map_get_set_eq. eauto.
  - rewrite map_get_set_ne; [exact Hk|].
    intros ->. rewrite String.eqb_refl in E. discriminate.
Qed.

Lemma fold_index_covers (p : Projection) (fc : list (Feature G))
    (idx : list (string * Point)) (feat : Feature G) (k : string) :
  In feat fc -> featureAlpha2 feat = Some k -> is_Some (centroid p feat) ->
  is_Some (map_get k (fold_left (indexFeature p) fc idx)).
Proof.
  revert idx. induction fc as [|f rest IH]; intros idx; simpl; [tauto|].
  intros [->|Hin] Ha Hc.
  - apply fold_index_keeps. unfold indexFeature. rewrite Ha.
    destruct Hc as [c ->]. rewrite map_get_set_eq. eauto.
  - apply IH; assumption.
Qed.



Lemma buildIndex_keys (p : Projection) (fc : list (Feature G)) (k : string) :
  In k (keys (buildIndex p fc)) <->
  exists feat, In feat fc /\ featureAlpha2 feat = Some k
               /\ is_Some (centroid p feat).
Proof.
  rewrite <- map_get_keys. split.
  - intros [c Hget].
    destruct (fold_index_origin _ _ _ _ _ Hget) as [Hnil|(f & Hin & Ha & Hc)];
      [discriminate|].
    exists f. rewrite Hc. eauto.
  - intros (f & Hin & Ha & Hc). exact (fold_index_covers _ _ _ _ _ Hin Ha Hc).
Qed.


End IndexFacts.

(** ** Invariants of the reachable states *)

Section Invariants.
Import World.
Open Scope Q_scope.
Context {G : Type} `{GeoLib G}.
Variable onCountrySelect : bool.

Abbreviation step := (World.step onCountrySelect).
Abbreviation run := (World.run onCountrySelect).

Lemma computeCentroids_geometry (st : State G) :
  projection (computeCentroids st) = projection st
  /\ landGeo (computeCentroids st) = landGeo st
  /\ countryLinesGeo (computeCentroids st) = countryLinesGeo st
  /\ countriesFC (computeCentroids st) = countriesFC st.
Proof.
  unfold computeCentroids.
  destruct (projection st) eqn:Ep, (countriesFC st) eqn:Ef; cbn; auto.
Qed.

Lemma computeCentroids_index (st : State G) :
  (projection st = None \/ countriesFC st = None -> alpha2ToCentroid st = []) ->
  alpha2ToCentroid (computeCentroids st) = currentIndex (computeCentroids st).
Proof.
  intros Hempty. unfold currentIndex.
  destruct (computeCentroids_geometry st) as (-> & _ & _ & ->).
  unfold computeCentroids.
  destruct (projection st) eqn:Ep.
  - destruct (countriesFC st) eqn:Ef; cbn; [reflexivity|].
    apply Hempty. right. reflexivity.
  - apply Hempty. left. reflexivity.
Qed.

Lemma onResize_coherent (v : Viewport) (st : State G) :
  coherent st -> coherent (onResize v st).
Proof.
  intros (Hidx & Hland & Hfc). unfold onResize.
  pose proof (computeCentroids_geometry (setSize v st)) as (Ep & El & _ & Ef).
  split; [|split].
  - apply computeCentroids_index. cbn.
    unfold currentIndex in Hidx. rewrite Hidx.
    intros [Hp|Hf].
    + destruct (landGeo st); [discriminate|]. rewrite Hp. reflexivity.
    + rewrite Hf. destruct (projection st); reflexivity.
  - rewrite El, Ep. cbn. intros Hl. rewrite Hl. exact (Hland Hl).
  - rewrite Ef, computeCentroids_blips. cbn. exact Hfc.
Qed.

Lemma hasAlpha2_true (code : string) (feat : Feature G) :
  hasAlpha2 code feat = true -> featureAlpha2 feat = Some code.
Proof.
  unfold hasAlpha2. destruct (featureAlpha2 feat) as [a2|]; [|discriminate].
  intros E. apply String.eqb_eq in E. congruence.
Qed.

(** In a coherent state the on-the-fly branch of [onBlip] finds nothing to
    add: a code missing from the index has no feature with a finite
    centroid. *)
Lemma onBlip_fallback_idle (st : State G) (p : Projection)
    (fc : list (Feature G)) (code : string) (feat : Feature G) :
  coherent st -> projection st = Some p -> countriesFC st = Some fc ->
  map_get code (alpha2ToCentroid st) = None ->
  find (hasAlpha2 code) fc = Some feat ->
  centroid p feat = None.
Proof.
  intros (Hidx & _) Hp Hf Hget Hfind.
  apply find_some in Hfind. destruct Hfind as [Hin Ha].
  apply hasAlpha2_true in Ha.
  destruct (centroid p feat) as [c|] eqn:Ec; [|reflexivity].
  assert (Hk : In code (keys (alpha2ToCentroid st))).
  { rewrite Hidx. unfold currentIndex. rewrite Hp, Hf.
    apply buildIndex_keys. exists feat. rewrite Ec. eauto. }
  apply map_get_keys in Hk. rewrite Hget in Hk. destruct Hk as [? [=]].
Qed.

Lemma coherent_with_blips (bs : list Blip) (st : State G) :
  coherent st -> (countriesFC st = None -> bs = []) ->
  coherent (with_blips bs st).
Proof. intros (Hidx & Hland & _) Hbs. split; [|split]; assumption. Qed.

Lemma coherent_with_pinned (s : list string) (st : State G) :
  coherent st -> coherent (with_pinned s st).
Proof. intros (Hidx & Hland & Hfc). split; [|split]; assumption. Qed.

Lemma step_coherent (st : State G) (ev : Event) :
  coherent st -> coherent (fst (step st ev)).
Proof.
  intros Hc.
  destruct ev as [v|cx cy l t now|cx cy l t| |code|detail now|now]; simpl.
  - apply onResize_coherent. exact Hc.
  - unfold onClick.
    destruct (projection st) eqn:Ep; [|exact Hc].
    destruct (countriesFC st) eqn:Ef; [|exact Hc].
    destruct (invert _ _); [|exact Hc].
    destruct (find _ _); [|exact Hc].
    destruct (alpha2FromNumeric _); [|exact Hc].
    apply coherent_with_blips; [exact Hc | rewrite Ef; discriminate].
  - exact Hc.
  - exact Hc.
  - unfold onPin. destruct code as [c|]; [|exact Hc].
    destruct (truthy c); [|exact Hc].
    apply coherent_with_pinned. exact Hc.
  - unfold onBlip. destruct detail as [[c k]|]; [|exact Hc].
    destruct (map_get _ _) eqn:Eg.
    + apply coherent_with_blips; [exact Hc|].
      intros Hf. exfalso. destruct Hc as (Hidx & _).
      unfold currentIndex in Hidx. rewrite Hf in Hidx.
      rewrite Hidx in Eg. destruct (projection st); discriminate.
    + destruct (projection st) as [p|] eqn:Ep; [|exact Hc].
      destruct (countriesFC st) as [fc|] eqn:Ef; [|exact Hc].
      destruct (find _ _) as [feat|] eqn:Efind; [|exact Hc].
      rewrite (onBlip_fallback_idle st p fc _ feat Hc Ep Ef Eg Efind).
      exact Hc.
  - unfold frame. destruct (drawBlips now (blips st)) as [ops next] eqn:Ed.
    apply coherent_with_blips; [exact Hc|].
    intros Hf. destruct Hc as (_ & _ & Hfc).
    rewrite (Hfc Hf) in Ed. simpl in Ed. congruence.
Qed.

Lemma init_coherent (v0 v1 : Viewport) (load : LoadResult G) :
  coherent (init v0 v1 load).
Proof.
  unfold init.
  set (st1 := setSize v1 (loaded load (setSize v0 emptyState))).
  set (st2 := match landGeo st1 with
              | Some land =>
                  with_projection
                    (Some (fitProjection (width st1) (height st1) land)) st1
              | None => st1
              end).
  assert (Hidx : alpha2ToCentroid st2 = []).
  { subst st2 st1. destruct load; reflexivity. }
  assert (Hbl : blips st2 = []).
  { subst st2 st1. destruct load; reflexivity. }
  assert (Hl : landGeo st2 = None -> projection st2 = None).
  { subst st2 st1. destruct load; cbn; intros; try discriminate; reflexivity. }
  pose proof (computeCentroids_geometry st2) as (Ep & El & _ & Ef).
  split; [|split].
  - apply computeCentroids_index. intros _. exact Hidx.
  - rewrite El, Ep. exact Hl.
  - rewrite computeCentroids_blips. intros _. exact Hbl.
Qed.

Lemma run_coherent (st : State G) (evs : list Event) :
  coherent st -> coherent (run st evs).
Proof.
  revert st. induction evs as [|ev evs IH]; intros st Hc; [exact Hc|].
  rewrite run_cons. apply IH. apply step_coherent. exact Hc.
Qed.

(** The geometry is fixed once [init] has run. *)
Lemma step_geometry (st : State G) (ev : Event) :
  landGeo (fst (step st ev)) = landGeo st
  /\ countryLinesGeo (fst (step st ev)) = countryLinesGeo st
  /\ countriesFC (fst (step st ev)) = countriesFC st.
Proof.
  destruct ev as [v|cx cy l t now|cx cy l t| |code|detail now|now]; simpl;
    auto.
  - unfold onResize.
    destruct (computeCentroids_geometry (setSize v st)) as (_ & -> & -> & ->).
    auto.
  - unfold onClick.
    destruct (projection st); auto. destruct (countriesFC st) eqn:E; auto.
    destruct (invert _ _); auto. destruct (find _ _); auto.
    destruct (alpha2FromNumeric _); auto.
  - unfold onPin. destruct code as [c|]; auto. destruct (truthy c); auto.
  - unfold onBlip. destruct detail as [[c k]|]; auto.
    destruct (map_get _ _); auto.
    destruct (projection st); auto. destruct (countriesFC st) eqn:E; auto.
    destruct (find _ _); auto. destruct (centroid _ _); auto.
  - unfold frame. destruct (drawBlips now (blips st)). auto.
Qed.

Lemma run_geometry (st : State G) (evs : list Event) :
  landGeo (run st evs) = landGeo st
  /\ countryLinesGeo (run st evs) = countryLinesGeo st
  /\ countriesFC (run st evs) = countriesFC st.
Proof.
  revert st. induction evs as [|ev evs IH]; intros st; [auto|].
  rewrite run_cons.
  destruct (IH (fst (step st ev))) as (-> & -> & ->).
  apply step_geometry.
Qed.

End Invariants.

(** ** The interaction layer *)

Section InteractionFacts.
Import World.
Open Scope Q_scope.
Context {G : Type} `{GeoLib G}.
Variable onCountrySelect : bool.

Abbreviation step := (World.step onCountrySelect).
Abbreviation run := (World.run onCountrySelect).
Abbreviation trace := (World.trace onCountrySelect).

Lemma nearer_keeps (mx my : Q) (seen : list (string * Point))
    (nearest : option (string * Q)) (entry : string * Point) :
  nearest_of mx my seen nearest ->
  nearest_of mx my (seen ++ [entry]) (nearer mx my nearest entry).
Proof.
  destruct entry as [k c]. unfold nearer. cbn [fst snd].
  fold (dist2 mx my c).
  destruct nearest as [[code d2]|]; simpl.
  - intros (c0 & Hin & -> & Hmin).
    destruct (Qltb (dist2 mx my c) (dist2 mx my c0)) eqn:E.
    + apply Qltb_true in E. exists c. split; [|split].
      * apply in_or_app. right. left. reflexivity.
      * reflexivity.
      * intros k' c' Hin'. apply in_app_or in Hin'.
        destruct Hin' as [Hs|[[= <- <-]|[]]]; [|apply Qle_refl].
        specialize (Hmin _ _ Hs). lra.
    + apply Qltb_false in E. exists c0. split; [|split].
      * apply in_or_app. left. exact Hin.
      * reflexivity.
      * intros k' c' Hin'. apply in_app_or in Hin'.
        destruct Hin' as [Hs|[[= <- <-]|[]]]; [exact (Hmin _ _ Hs) | exact E].
  - intros ->. exists c. split; [left; reflexivity|]. split; [reflexivity|].
    intros k' c' [[= <- <-]|[]]. apply Qle_refl.
Qed.

Lemma nearest_fold (mx my : Q) (idx seen : list (string * Point))
    (nearest : option (string * Q)) :
  nearest_of mx my seen nearest ->
  nearest_of mx my (seen ++ idx) (fold_left (nearer mx my) idx nearest).
Proof.
  revert seen nearest.
  induction idx as [|entry rest IH]; intros seen nearest Hn; simpl.
  - rewrite app_nil_r. exact Hn.
  - replace (seen ++ entry :: rest) with ((seen ++ [entry]) ++ rest)
      by (rewrite <- app_assoc; reflexivity).
    apply IH. apply nearer_keeps. exact Hn.
Qed.

Lemma nearestCentroid_spec (mx my : Q) (idx : list (string * Point)) :
  nearest_of mx my idx (nearestCentroid mx my idx).
Proof. exact (nearest_fold mx my idx [] None eq_refl). Qed.

Lemma onPointerMove_one (st : State G) (cx cy l t : Q) :
  coherent st -> alpha2ToCentroid st <> [] ->
  length (onPointerMove (G:=G) cx cy l t st) = 1%nat.
Proof.
  intros (Hidx & _) Hne. unfold onPointerMove.
  destruct (projection st) eqn:Ep.
  - destruct (alpha2ToCentroid st) eqn:Ei; [congruence|].
    destruct (nearestCentroid _ _ _) as [[code d2]|]; [|reflexivity].
    destruct (sqrt_leb d2 threshold); reflexivity.
  - exfalso. apply Hne. rewrite Hidx. unfold currentIndex. rewrite Ep.
    reflexivity.
Qed.

Lemma trace_pointer_moves (st : State G) (moves : list Event) :
  coherent st -> alpha2ToCentroid st <> [] ->
  forallb is_pointer_move moves = true ->
  run st moves = st /\ length (trace st moves) = length moves.
Proof.
  intros Hc Hne. induction moves as [|ev rest IH]; [split; reflexivity|].
  intros Hall. cbn [forallb] in Hall.
  apply andb_true_iff in Hall. destruct Hall as [Hev Hrest].
  destruct ev; try discriminate.
  rewrite run_cons. cbn [World.trace World.step fst snd].
  destruct (IH Hrest) as [Hrun Hlen]. split; [exact Hrun|].
  rewrite length_app, Hlen, (onPointerMove_one st _ _ _ _ Hc Hne).
  reflexivity.
Qed.

(** C2. In every state the component reaches, a pointer-move over a
    non-empty centroid index finds a centroid whose squared distance to the
    pointer is least among all indexed ones and emits one hover event at the
    pointer position: with that country's code when the centroid is within
    20 pixels (squared distance at most 20 * 20), with no country otherwise.
    The handler leaves the state as it was, so every pointer-move of a
    sequence emits its event.  (Over an empty index the handler returns
    without an event.)  Pointer-leave emits "no country" at (-1, -1). *)
Theorem hover_nearest (v0 v1 : Viewport) (load : LoadResult G)
    (evs : list Event) (cx cy l t : Q) :
  let st := run (init v0 v1 load) evs in
  let mx := cx - l in
  let my := cy - t in
  (alpha2ToCentroid st <> [] ->
     (exists code c,
        In (code, c) (alpha2ToCentroid st)
        /\ (forall k' c', In (k', c') (alpha2ToCentroid st) ->
              dist2 mx my c <= dist2 mx my c')
        /\ step st (PointerMove cx cy l t)
           = (st, [Hover (if Qle_bool (dist2 mx my c) (20 * 20)
                          then Some code else None) mx my]))
     /\ forall moves, forallb is_pointer_move moves = true ->
          length (trace st moves) = length moves)
  /\ (alpha2ToCentroid st = [] -> step st (PointerMove cx cy l t) = (st, []))
  /\ step st PointerLeave = (st, [Hover None (-1) (-1)]).
Proof.
  intros st mx my. split; [|split; [|reflexivity]]; cycle 1.
  { intros Hnil. cbn [World.step]. unfold onPointerMove. rewrite Hnil.
    destruct (projection st); reflexivity. }
  assert (Hc : coherent st) by (apply run_coherent, init_coherent).
  intros Hne. split.
  - pose proof Hc as (Hidx & _).
    cbn [World.step]. unfold onPointerMove.
    destruct (projection st) eqn:Ep.
    + destruct (alpha2ToCentroid st) as [|e r] eqn:Ei; [congruence|].
      pose proof (nearestCentroid_spec mx my (e :: r)) as Hn.
      fold mx my.
      destruct (nearestCentroid mx my (e :: r)) as [[code d2]|];
        [|discriminate Hn].
      destruct Hn as (c & Hin & -> & Hmin).
      exists code, c. split; [exact Hin|]. split; [exact Hmin|].
      unfold sqrt_leb, threshold, dispatchHover.
      destruct (Qle_bool _ _); reflexivity.
    + exfalso. apply Hne. rewrite Hidx. unfold currentIndex. rewrite Ep.
      reflexivity.
  - intros moves Hall.
    exact (proj2 (trace_pointer_moves st moves Hc Hne Hall)).
Qed.

End InteractionFacts.

Lemma hover_nearest_witness :
  exists code c,
    In (code, c) (World.alpha2ToCentroid Toy.world)
    /\ World.step true Toy.world (World.PointerMove 172 108 0 0)
       = (Toy.world,
          [World.Hover
             (if Qle_bool (World.dist2 (172 - 0) (108 - 0) c) (20 * 20)
              then Some code else None) (172 - 0) (108 - 0)])%Q.
Proof.
  destruct (hover_nearest (H:=Toy.lib) true Toy.viewport Toy.viewport
              (World.AllLoaded Toy.land Toy.lines Toy.countries) []
              172 108 0 0) as [Hmove _].
  destruct Hmove as [(code & c & Hin & _ & Hstep) _].
  - vm_compute. discriminate.
  - exists code, c. split; [exact Hin | exact Hstep].
Defined.

Section ClickFacts.
Import World.
Open Scope Q_scope.
Context {G : Type} `{GeoLib G}.
Variable onCountrySelect : bool.

Lemma find_first {A : Type} (f : A -> bool) (pre post : list A) (x : A) :
  (forall a, In a pre -> f a = false) -> f x = true ->
  find f (pre ++ x :: post) = Some x.
Proof.
  intros Hpre Hx. induction pre as [|a pre IH]; simpl.
  - rewrite Hx. reflexivity.
  - rewrite (Hpre a) by (left; reflexivity).
    apply IH. intros a' Ha'. apply Hpre. right. exact Ha'.
Qed.


End ClickFacts.


(** ** The projection manager *)

Section ProjectionFacts.
Import World.
Open Scope Q_scope.
Context {G : Type} `{GeoLib G}.

Lemma Math_PI_close : 3.141592653589793 <= Math_PI < 3.141592653589794.
Proof. split; vm_compute; [discriminate | reflexivity]. Qed.

(** C6. With land geometry present, [setSize] (run on every resize) floors
    the viewport to (width, height) and sets the projection to the
    equirectangular projection fitted to
    [[padding, padding], [width - padding, height - padding]] with
    padding = max(12, min(width, height) * 0.028), its scale multiplied by
    1.06; when the fit throws, to scale (width / (2 pi)) * 1.06 and translate
    (width / 2, height / 2).  The result depends on the viewport and the land
    only, not on the projection held before. *)
Theorem setSize_projection (v : Viewport) (st : State G) (land : G) :
  landGeo st = Some land ->
  let w := inject_Z (Qfloor (rect_width v)) in
  let h := inject_Z (Qfloor (rect_height v)) in
  let padding := Qmax 12 (Qmin w h * 0.028) in
  width (setSize v st) = w /\ height (setSize v st) = h
  /\ (forall fitted,
        fitExtent (padding, padding) (w - padding, h - padding) land
          = Some fitted ->
        projection (setSize v st)
          = Some (mkProjection (scale fitted * 1.06) (translate fitted)))
  /\ (fitExtent (padding, padding) (w - padding, h - padding) land = None ->
        projection (setSize v st)
          = Some (mkProjection (w / (2 * Math_PI) * 1.06) (w / 2, h / 2)))
  /\ projection (onResize v st) = projection (setSize v st)
  /\ (forall st', landGeo st' = Some land ->
        projection (onResize v st') = projection (onResize v st)).
Proof.
  intros Hland w h padding.
  assert (Hp : forall s, landGeo s = Some land ->
                 projection (setSize v s) = Some (fitProjection w h land)).
  { intros s Hs. unfold setSize. cbn. rewrite Hs. reflexivity. }
  assert (Hr : forall s, projection (onResize v s) = projection (setSize v s)).
  { intros s. unfold onResize.
    exact (proj1 (computeCentroids_geometry (setSize v s))). }
  split; [reflexivity|]. split; [reflexivity|].
  split; [|split; [|split]].
  - intros fitted Hfit. rewrite (Hp st Hland). unfold fitProjection.
    fold padding. rewrite Hfit. reflexivity.
  - intros Hfit. rewrite (Hp st Hland). unfold fitProjection.
    fold padding. rewrite Hfit. reflexivity.
  - apply Hr.
  - intros st' Hland'. rewrite !Hr, (Hp st Hland), (Hp st' Hland').
    reflexivity.
Qed.

End ProjectionFacts.

Lemma setSize_projection_witness :
  World.projection (World.setSize Toy.wide Toy.world)
  = Some (World.mkProjection (164851200000 # 36000000000)
            (1600000000 # 2000000, 800000000 # 2000000)).
Proof.
  destruct (setSize_projection (H:=Toy.lib) Toy.wide Toy.world Toy.land
              eq_refl) as (_ & _ & Hfit & _).
  etransitivity; [apply Hfit; vm_compute; reflexivity|].
  vm_compute. reflexivity.
Defined.

(** ** The centroid index along a session *)

Section FreshnessFacts.
Import World.
Open Scope Q_scope.
Context {G : Type} `{GeoLib G}.
Variable onCountrySelect : bool.

Abbreviation step := (World.step onCountrySelect).
Abbreviation run := (World.run onCountrySelect).


End FreshnessFacts.


(** ** A failed geometry load *)

Section DegradedFacts.
Import World.
Open Scope Q_scope.
Context {G : Type} `{GeoLib G}.
Variable onCountrySelect : bool.

Abbreviation step := (World.step onCountrySelect).
Abbreviation run := (World.run onCountrySelect).

Lemma computeCentroids_pinned (st : State G) :
  pinned (computeCentroids st) = pinned st.
Proof.
  unfold computeCentroids.
  destruct (projection st), (countriesFC st); reflexivity.
Qed.

Lemma init_geometry (v0 v1 : Viewport) (load : LoadResult G) :
  landGeo (init v0 v1 load)
    = match load with
      | LoadFailed => None
      | LandLoaded land | BordersLoaded land _ | AllLoaded land _ _ => Some land
      end
  /\ countryLinesGeo (init v0 v1 load)
    = match load with
      | LoadFailed | LandLoaded _ => None
      | BordersLoaded _ lines | AllLoaded _ lines _ => Some lines
      end
  /\ countriesFC (init v0 v1 load)
    = match load with
      | AllLoaded _ _ fc => Some fc
      | _ => None
      end.
Proof.
  unfold init.
  match goal with
  | |- context [computeCentroids ?s] =>
      destruct (computeCentroids_geometry s) as (_ & -> & -> & ->)
  end.
  destruct load; cbn; auto.
Qed.

Lemma drawPins_empty_index (st : State G) :
  alpha2ToCentroid st = [] -> drawPins st = [].
Proof.
  intros Hnil. unfold drawPins. destruct (projection st); [|reflexivity].
  rewrite Hnil. induction (pinned st) as [|c r IH]; [reflexivity | exact IH].
Qed.

(** What a session looks like when the feature collection is missing. *)
Lemma no_features (st : State G) :
  coherent st -> countriesFC st = None ->
  alpha2ToCentroid st = [] /\ blips st = [].
Proof.
  intros (Hidx & _ & Hbl) Hf. split; [|exact (Hbl Hf)].
  rewrite Hidx. unfold currentIndex. rewrite Hf.
  destruct (projection st); reflexivity.
Qed.

Lemma setSize_fitted (v : Viewport) (st : State G) :
  (landGeo st = None -> projection st = None) -> fitted (setSize v st).
Proof.
  intros Hnone. unfold fitted, setSize. cbn.
  destruct (landGeo st); [reflexivity | exact (Hnone eq_refl)].
Qed.

Lemma computeCentroids_fitted (st : State G) :
  fitted st -> fitted (computeCentroids st).
Proof.
  intros Hf. unfold computeCentroids.
  destruct (projection st) eqn:Ep; [|exact Hf].
  destruct (countriesFC st); [|exact Hf].
  unfold fitted in *. cbn. exact Hf.
Qed.

Lemma fitted_no_land (st : State G) :
  fitted st -> landGeo st = None -> projection st = None.
Proof. unfold fitted. intros -> ->. reflexivity. Qed.

Lemma step_fitted (st : State G) (ev : Event) :
  fitted st -> fitted (fst (step st ev)).
Proof.
  intros Hf.
  destruct ev as [v|cx cy l t now|cx cy l t| |code|detail now|now]; simpl.
  - unfold onResize. apply computeCentroids_fitted, setSize_fitted.
    exact (fitted_no_land st Hf).
  - unfold onClick.
    destruct (projection st) eqn:Ep; [|exact Hf].
    destruct (countriesFC st); [|exact Hf].
    destruct (invert _ _); [|exact Hf].
    destruct (find _ _); [|exact Hf].
    destruct (alpha2FromNumeric _); [|exact Hf].
    unfold fitted in *. cbn. exact Hf.
  - exact Hf.
  - exact Hf.
  - unfold onPin. destruct code as [c|]; [|exact Hf].
    destruct (truthy c); exact Hf.
  - unfold onBlip. destruct detail as [[c k]|]; [|exact Hf].
    destruct (map_get _ _); [exact Hf|].
    destruct (projection st) eqn:Ep; [|exact Hf].
    destruct (countriesFC st); [|exact Hf].
    destruct (find _ _); [|exact Hf].
    destruct (centroid _ _); [|exact Hf].
    unfold fitted in *. cbn. exact Hf.
  - unfold frame. destruct (drawBlips now (blips st)). exact Hf.
Qed.

Lemma init_fitted (v0 v1 : Viewport) (load : LoadResult G) :
  fitted (init v0 v1 load).
Proof.
  unfold init. apply computeCentroids_fitted.
  destruct load; reflexivity.
Qed.

Lemma run_fitted (st : State G) (evs : list Event) :
  fitted st -> fitted (run st evs).
Proof.
  revert st. induction evs as [|ev evs IH]; intros st Hf; [exact Hf|].
  rewrite run_cons. apply IH, step_fitted. exact Hf.
Qed.

(** C8, as the code has it.  When the load fails, at whatever point, no
    later event raises an error (every handler is total) and in every state
    reached a frame draws the cleared canvas and the gradient background,
    then what had been loaded before the failure: nothing when the land load
    failed, the land outline when the failure came after it, the land outline
    and the borders when the mesh had been built too, each under the projection
    fitted to the current viewport; never a pin or a blip.  Click and
    pointer-move do nothing and emit nothing; pointer-leave still emits
    "no country" at (-1, -1). *)
Theorem degraded_rendering (v0 v1 : Viewport) (load : LoadResult G)
    (evs : list Event) :
  failed load ->
  let st := run (init v0 v1 load) evs in
  (forall now,
     snd (frame now st)
     = map Draw ([ClearRect (width st) (height st);
                  FillBackground (width st) (height st)]
                   ++ drawLand st ++ drawCountryBoundaries st))
  /\ (load = LoadFailed -> forall now, snd (frame now st) = backgroundOnly st)
  /\ (forall cx cy l t now, step st (Click cx cy l t now) = (st, []))
  /\ (forall cx cy l t, step st (PointerMove cx cy l t) = (st, []))
  /\ step st PointerLeave = (st, [Hover None (-1) (-1)])
  /\ (forall now,
        snd (frame now st)
        = map Draw ([ClearRect (width st) (height st);
                     FillBackground (width st) (height st)]
                      ++ leftover load st))
  /\ (forall land, load = LandLoaded land ->
        forall now,
          let p := fitProjection (width st) (height st) land in
          snd (frame now st)
          = map Draw [ClearRect (width st) (height st);
                      FillBackground (width st) (height st);
                      StrokeLand p land (yClip p st)])
  /\ (forall land lines, load = BordersLoaded land lines ->
        forall now,
          let p := fitProjection (width st) (height st) land in
          snd (frame now st)
          = map Draw [ClearRect (width st) (height st);
                      FillBackground (width st) (height st);
                      StrokeLand p land (yClip p st);
                      StrokeBoundaries p lines (yClip p st)]).
Proof.
  intros Hfail st.
  assert (Hc : coherent st) by (apply run_coherent, init_coherent).
  assert (Hfit : fitted st) by (apply run_fitted, init_fitted).
  destruct (run_geometry onCountrySelect (init v0 v1 load) evs)
    as (Hl & Hb & Hf).
  destruct (init_geometry v0 v1 load) as (Il & Ib & If).
  fold st in Hl, Hb, Hf. rewrite Il in Hl. rewrite Ib in Hb. rewrite If in Hf.
  assert (Hnone : countriesFC st = None).
  { rewrite Hf. destruct load; [reflexivity..|destruct Hfail]. }
  destruct (no_features st Hc Hnone) as [Hidx Hbl].
  assert (Hframe : forall now,
            snd (frame now st)
            = map Draw ([ClearRect (width st) (height st);
                         FillBackground (width st) (height st)]
                          ++ drawLand st ++ drawCountryBoundaries st)).
  { intros now. rewrite frame_ops, Hbl, (drawPins_empty_index st Hidx).
    cbn [drawBlips fst]. rewrite !app_nil_r. reflexivity. }
  assert (Hleft : drawLand st ++ drawCountryBoundaries st = leftover load st).
  { unfold drawLand, drawCountryBoundaries, leftover, fitted in *.
    rewrite Hfit, Hl, Hb. destruct load; [reflexivity..|destruct Hfail]. }
  assert (Hexact : forall now,
            snd (frame now st)
            = map Draw ([ClearRect (width st) (height st);
                         FillBackground (width st) (height st)]
                          ++ leftover load st)).
  { intros now. rewrite Hframe, Hleft. reflexivity. }
  split; [exact Hframe|].
  split; [|split; [|split; [|split; [|split; [|split]]]]].
  - intros -> now. rewrite Hframe.
    destruct Hc as (_ & Hproj & _). unfold drawLand, drawCountryBoundaries.
    rewrite (Hproj Hl). reflexivity.
  - intros cx cy l t now. cbn [World.step]. unfold onClick. rewrite Hnone.
    destruct (projection st); reflexivity.
  - intros cx cy l t. cbn [World.step]. unfold onPointerMove. rewrite Hidx.
    destruct (projection st); reflexivity.
  - reflexivity.
  - exact Hexact.
  - intros land Hload now. rewrite Hexact, Hload. reflexivity.
  - intros land lines Hload now. rewrite Hexact, Hload. reflexivity.
Qed.

End DegradedFacts.

(** C8, as stated, fails: when the land loads and the countries do not, the
    load has failed and the frames draw the land outline over the
    background. *)
Lemma partial_load_draws_land :
  let st := World.init Toy.viewport Toy.viewport (World.LandLoaded Toy.land) in
  World.failed (World.LandLoaded Toy.land)
  /\ snd (World.frame 0 st) <> World.backgroundOnly st.
Proof.
  split; [exact I|]. intros E. vm_compute in E. discriminate E.
Qed.

Lemma degraded_rendering_witness :
  (let st := World.run true
               (World.init Toy.viewport Toy.viewport World.LoadFailed)
               [World.PinEvent (Some "US"%string);
                World.BlipEvent (Some ("US"%string, World.New)) 3;
                World.Click 172 108 0 0 5] in
   snd (World.frame 7 st) = World.backgroundOnly st)
  /\
  (let st := World.run true
               (World.init Toy.viewport Toy.viewport
                  (World.BordersLoaded Toy.land Toy.lines))
               [World.PinEvent (Some "US"%string); World.Resize Toy.wide] in
   let p := World.fitProjection (World.width st) (World.height st) Toy.land in
   snd (World.frame 7 st)
   = map World.Draw
       [World.ClearRect (World.width st) (World.height st);
        World.FillBackground (World.width st) (World.height st);
        World.StrokeLand p Toy.land (World.yClip p st);
        World.StrokeBoundaries p Toy.lines (World.yClip p st)]).
Proof.
  split.
  - intros st.
    destruct (degraded_rendering (H:=Toy.lib) true Toy.viewport Toy.viewport
                World.LoadFailed
                [World.PinEvent (Some "US"%string);
                 World.BlipEvent (Some ("US"%string, World.New)) 3;
                 World.Click 172 108 0 0 5] I) as (_ & Hbg & _).
    exact (Hbg eq_refl 7%Q).
  - intros st.
    destruct (degraded_rendering (H:=Toy.lib) true Toy.viewport Toy.viewport
                (World.BordersLoaded Toy.land Toy.lines)
                [World.PinEvent (Some "US"%string); World.Resize Toy.wide] I)
      as (_ & _ & _ & _ & _ & _ & _ & Hborders).
    exact (Hborders Toy.land Toy.lines eq_refl 7%Q).
Defined.

(** ** The pin set *)

Section PinFacts.
Import World.
Open Scope Q_scope.
Context {G : Type} `{GeoLib G}.
Variable onCountrySelect : bool.

Abbreviation step := (World.step onCountrySelect).
Abbreviation run := (World.run onCountrySelect).


Lemma set_add_has (c : string) (s : list string) : In c (set_add c s).
Proof.
  unfold set_add, set_has. destruct (existsb (String.eqb c) s) eqn:E.
  - apply existsb_exists in E. destruct E as (x & Hin & Heq).
    apply String.eqb_eq in Heq. subst. exact Hin.
  - apply in_or_app. right. left. reflexivity.
Qed.


(** Only the pin handler touches the pin set. *)
Lemma step_pinned (st : State G) (ev : Event) :
  pinned (fst (step st ev))
  = match ev with
    | PinEvent (Some c) =>
        if truthy c then set_add (toUpperCase c) (pinned st) else pinned st
    | _ => pinned st
    end.
Proof.
  destruct ev as [v|cx cy l t now|cx cy l t| |code|detail now|now]; simpl;
    try reflexivity.
  - unfold onResize. rewrite computeCentroids_pinned. reflexivity.
  - unfold onClick.
    destruct (projection st); [|reflexivity].
    destruct (countriesFC st); [|reflexivity].
    destruct (invert _ _); [|reflexivity].
    destruct (find _ _); [|reflexivity].
    destruct (alpha2FromNumeric _); reflexivity.
  - unfold onPin. destruct code as [c|]; [|reflexivity].
    destruct (truthy c); reflexivity.
  - unfold onBlip. destruct detail as [[c k]|]; [|reflexivity].
    destruct (map_get _ _); [reflexivity|].
    destruct (projection st); [|reflexivity].
    destruct (countriesFC st); [|reflexivity].
    destruct (find _ _); [|reflexivity].
    destruct (centroid _ _); reflexivity.
  - unfold frame. destruct (drawBlips now (blips st)). reflexivity.
Qed.





End PinFacts.



(** ** The keys of the pin set and of the centroid index *)

Section KeyFacts.
Import World.
Open Scope Q_scope.
Context {G : Type} `{GeoLib G}.
Variable onCountrySelect : bool.

Abbreviation step := (World.step onCountrySelect).
Abbreviation run := (World.run onCountrySelect).

Lemma init_pinned (v0 v1 : Viewport) (load : LoadResult G) :
  pinned (init v0 v1 load) = [].
Proof.
  unfold init. rewrite computeCentroids_pinned. destruct load; reflexivity.
Qed.

Lemma run_pinned_keys (P : string -> Prop) (st : State G) (evs : list Event) :
  (forall c, truthy c = true -> P (toUpperCase c)) ->
  Forall P (pinned st) -> Forall P (pinned (run st evs)).
Proof.
  intros HP. revert st.
  induction evs as [|ev evs IH]; intros st Hst; [exact Hst|].
  rewrite run_cons. apply IH. rewrite step_pinned.
  destruct ev as [| | | |[c|]| |]; try exact Hst.
  destruct (truthy c) eqn:Et; [|exact Hst].
  unfold set_add. destruct (set_has _ _); [exact Hst|].
  apply Forall_app. split; [exact Hst|].
  constructor; [exact (HP c Et) | constructor].
Qed.

Lemma featureAlpha2_table (feat : Feature G) (k : string) :
  featureAlpha2 feat = Some k ->
  exists a, whereNumeric (padStart 3 "0" (featureNumeric feat)) = Some a
            /\ truthy a = true /\ k = toUpperCase a.
Proof.
  unfold featureAlpha2, alpha2FromNumeric, Leaderboard.alpha2FromNumeric.
  destruct (whereNumeric _) as [a|]; [|discriminate].
  destruct (truthy a) eqn:Et; [|discriminate].
  intros [= <-]. exists a. auto.
Qed.

(** C1, as the code has it.  The pin handler drops a missing or empty code
    and stores every other code upper-cased, whatever its length and
    characters: the keys of the pin set are non-empty strings without
    lower-case ASCII letters.  A key of the centroid index is the
    upper-cased, non-empty alpha-2 field of an entry of the iso-3166-1
    table; when every alpha-2 field of the table upper-cases to two
    upper-case letters, so does every key of the index. *)
Theorem stored_keys (v0 v1 : Viewport) (load : LoadResult G)
    (evs : list Event) :
  let st := run (init v0 v1 load) evs in
  (forall code,
     pinned (fst (step st (PinEvent code)))
     = match code with
       | Some c =>
           if truthy c then set_add (toUpperCase c) (pinned st)
           else pinned st
       | None => pinned st
       end)
  /\ Forall (fun k => truthy k = true /\ toUpperCase k = k) (pinned st)
  /\ (forall k, In k (keys (alpha2ToCentroid st)) ->
        exists n a, whereNumeric n = Some a /\ truthy a = true
                    /\ k = toUpperCase a)
  /\ ((forall n a, whereNumeric n = Some a ->
         test_AZ2 (toUpperCase a) = true) ->
      Forall (fun k => test_AZ2 k = true) (keys (alpha2ToCentroid st))).
Proof.
  intros st.
  assert (Hc : coherent st) by (apply run_coherent, init_coherent).
  assert (Hkey : forall k, In k (keys (alpha2ToCentroid st)) ->
            exists n a, whereNumeric n = Some a /\ truthy a = true
                        /\ k = toUpperCase a).
  { intros k Hk. destruct Hc as (Hidx & _). rewrite Hidx in Hk.
    unfold currentIndex in Hk.
    destruct (projection st) as [p|]; [|destruct Hk].
    destruct (countriesFC st) as [fc|]; [|destruct Hk].
    apply buildIndex_keys in Hk. destruct Hk as (feat & _ & Ha & _).
    destruct (featureAlpha2_table feat k Ha) as (a & Hw & Ht & ->).
    eauto. }
  split; [|split; [|split]].
  - intros code. rewrite step_pinned. destruct code; reflexivity.
  - apply run_pinned_keys.
    + intros c Ht. rewrite truthy_toUpperCase, toUpperCase_idem. auto.
    + rewrite init_pinned. constructor.
  - exact Hkey.
  - intros Htable. apply Forall_forall. intros k Hk.
    apply list_elem_of_In in Hk.
    destruct (Hkey k Hk) as (n & a & Hw & _ & ->). exact (Htable n a Hw).
Qed.

End KeyFacts.

(** C1, as stated, fails: a three-letter code delivered on the pin channel
    is stored, upper-cased, in the pin set. *)
Lemma pin_stores_unvalidated_code :
  World.pinned (World.run true Toy.world [World.PinEvent (Some "usa"%string)])
  = ["USA"%string]
  /\ test_AZ2 "USA" = false.
Proof. split; vm_compute; reflexivity. Qed.

Lemma stored_keys_witness :
  Forall (fun k => test_AZ2 k = true)
    (World.keys (World.alpha2ToCentroid
                   (World.run true Toy.world
                      [World.PinEvent (Some "usa"%string);
                       World.Resize Toy.wide]))).
Proof.
  destruct (stored_keys (H:=Toy.lib) true Toy.viewport Toy.viewport
              (World.AllLoaded Toy.land Toy.lines Toy.countries)
              [World.PinEvent (Some "usa"%string); World.Resize Toy.wide])
    as (_ & _ & _ & Htable).
  apply Htable. intros n a. cbn [World.whereNumeric Toy.lib]. unfold Toy.table.
  destruct (String.eqb n "840"); [intros [= <-]; reflexivity|].
  destruct (String.eqb n "250"); [intros [= <-]; reflexivity|].
  destruct (String.eqb n "076"); [intros [= <-]; reflexivity|].
  discriminate.
Defined.

(** ** More of leaderboard.ts *)

Section NormalizeFacts.
Import Leaderboard.

Lemma is_upper_plain (c : ascii) :
  is_upper c = true -> is_white c = false /\ upper_char c = c.
Proof.
  destruct c as [[] [] [] [] [] [] [] []]; vm_compute; intros Hu;
    try discriminate Hu; split; reflexivity.
Qed.

Lemma test_AZ2_shape (s : string) :
  test_AZ2 s = true ->
  exists a b, s = String a (String b EmptyString)
              /\ is_upper a = true /\ is_upper b = true.
Proof.
  destruct s as [|a [|b [|? ?]]]; try discriminate. simpl.
  intros Hab. apply andb_true_iff in Hab. exists a, b. tauto.
Qed.

Lemma test_AZ2_fixed (s : string) :
  test_AZ2 s = true -> toUpperCase (trim s) = s.
Proof.
  intros Hs. destruct (test_AZ2_shape s Hs) as (a & b & -> & Ha & Hb).
  destruct (is_upper_plain a Ha) as [Wa Ua].
  destruct (is_upper_plain b Hb) as [Wb Ub].
  unfold trim. cbn [trimStart]. rewrite Wa. cbn [trimEnd]. rewrite Wb.
  cbn [toUpperCase]. rewrite Ua, Ub. reflexivity.
Qed.

Lemma normalize_fixed (input : option string) (cc : string) :
  normalizeCountryCode input = Some cc ->
  test_AZ2 cc = true
  /\ String.length cc = 2%nat
  /\ normalizeCountryCode (Some cc) = Some cc.
Proof.
  destruct input as [s|]; [|discriminate].
  intros Hn. apply normalizeCountryCode_Some in Hn. destruct Hn as [Ht ->].
  split; [exact Ht|].
  destruct (test_AZ2_shape _ Ht) as (a & b & Heq & _). split.
  - rewrite Heq. reflexivity.
  - apply normalizeCountryCode_Some. rewrite (test_AZ2_fixed _ Ht). auto.
Qed.

(** Whatever [normalizeCountryCode] accepts, it returns as two upper-case
    ASCII letters, and such a code is a fixed point: normalising it again
    returns it unchanged.  Null, undefined and the empty string are
    rejected. *)
Theorem normalizeCountryCode_canonical (input : option string) (cc : string) :
  (normalizeCountryCode input = Some cc ->
     test_AZ2 cc = true
     /\ String.length cc = 2%nat
     /\ normalizeCountryCode (Some cc) = Some cc)
  /\ normalizeCountryCode None = None
  /\ normalizeCountryCode (Some EmptyString) = None.
Proof.
  split; [apply normalize_fixed | split; reflexivity].
Qed.

End NormalizeFacts.

Lemma normalizeCountryCode_canonical_witness :
  test_AZ2 "GR" = true
  /\ String.length "GR" = 2%nat
  /\ Leaderboard.normalizeCountryCode (Some "GR"%string) = Some "GR"%string.
Proof.
  exact (proj1 (normalizeCountryCode_canonical
                  (Some (String " " (String "g" (String "r" (String "009" EmptyString)))))
                  "GR") eq_refl).
Defined.

Section CounterFacts.
Import Leaderboard.

Lemma incrementCountry_working (c cc : string) (d : option Delta) (ls : Storage) :
  writable ls = true -> normalizeCountryCode (Some c) = Some cc ->
  incrementCountry c d (Some ls)
  = (Some (mkStorage
             (Some (<[cc := (default 0 (getCounts (Some ls) !! cc)
                             + increment_of d)%Q]> (getCounts (Some ls))))
             true),
     [LeaderboardUpdate]).
Proof.
  intros Hw Hn. unfold incrementCountry. rewrite Hn. cbn [setCounts].
  rewrite Hw. reflexivity.
Qed.

(** Two increments whose inputs normalise to the same code, in a storage that
    accepts writes, add up on one counter: it ends at its former count (0
    when absent) plus both deltas; the other counters are untouched and each
    call emits one update event. *)
Theorem incrementCountry_accumulates (c1 c2 cc : string)
    (d1 d2 : option Delta) (ls : Storage) :
  writable ls = true ->
  normalizeCountryCode (Some c1) = Some cc ->
  normalizeCountryCode (Some c2) = Some cc ->
  let r1 := incrementCountry c1 d1 (Some ls) in
  let r2 := incrementCountry c2 d2 (fst r1) in
  getCounts (fst r2) !! cc
  = Some (default 0 (getCounts (Some ls) !! cc)
          + increment_of d1 + increment_of d2)%Q
  /\ (forall k, k <> cc -> getCounts (fst r2) !! k = getCounts (Some ls) !! k)
  /\ snd r1 ++ snd r2 = [LeaderboardUpdate; LeaderboardUpdate].
Proof.
  intros Hw H1 H2 r1 r2. subst r1 r2.
  rewrite (incrementCountry_working c1 cc d1 ls Hw H1). cbn [fst snd].
  rewrite (incrementCountry_working c2 cc d2 (mkStorage _ true) eq_refl H2). cbn [fst snd].
  cbn [getCounts item]. split; [|split].
  - rewrite !lookup_insert_eq. reflexivity.
  - intros k Hk. rewrite !lookup_insert_ne by congruence. reflexivity.
  - reflexivity.
Qed.

(** Increments of different codes commute as far as the counts go: every
    code has the same count whichever of the two calls comes first, in every
    environment (also without a window, with a storage that rejects writes,
    or when one input does not normalise), and the same update events are
    emitted.  (The order in which the stored object lists its keys, which the
    tie order of [topN] follows, is not part of this statement.) *)
Theorem incrementCountry_counts_commute (c1 c2 : string)
    (d1 d2 : option Delta) (w : Window) (k : string) :
  normalizeCountryCode (Some c1) <> normalizeCountryCode (Some c2) ->
  let r2 := incrementCountry c2 d2 w in
  let r21 := incrementCountry c1 d1 (fst r2) in
  let r1 := incrementCountry c1 d1 w in
  let r12 := incrementCountry c2 d2 (fst r1) in
  getCounts (fst r21) !! k = getCounts (fst r12) !! k
  /\ snd r2 ++ snd r21 = snd r1 ++ snd r12.
Proof.
  intros Hne r2 r21 r1 r12. subst r2 r21 r1 r12.
  destruct (normalizeCountryCode (Some c1)) as [cc1|] eqn:E1; cycle 1.
  { assert (Hskip : forall d w', incrementCountry c1 d w' = (w', []))
      by (intros; unfold incrementCountry; rewrite E1; reflexivity).
    rewrite !Hskip. cbn [fst snd app]. rewrite ?app_nil_r.
    split; reflexivity. }
  destruct (normalizeCountryCode (Some c2)) as [cc2|] eqn:E2; cycle 1.
  { assert (Hskip : forall d w', incrementCountry c2 d w' = (w', []))
      by (intros; unfold incrementCountry; rewrite E2; reflexivity).
    rewrite !Hskip. cbn [fst snd app]. rewrite ?app_nil_r.
    split; reflexivity. }
  assert (Hcc : cc1 <> cc2) by congruence.
  destruct w as [ls|].
  - destruct (writable ls) eqn:Hw.
    + rewrite (incrementCountry_working c2 cc2 d2 ls Hw E2).
      rewrite (incrementCountry_working c1 cc1 d1 ls Hw E1). cbn [fst snd].
      rewrite (incrementCountry_working c1 cc1 d1 (mkStorage _ true) eq_refl E1).
      rewrite (incrementCountry_working c2 cc2 d2 (mkStorage _ true) eq_refl E2).
      cbn [fst snd getCounts item]. split; [|reflexivity].
      rewrite !(lookup_insert_ne _ cc2 cc1), !(lookup_insert_ne _ cc1 cc2)
        by congruence.
      destruct (decide (k = cc1)) as [->|H1];
        [rewrite lookup_insert_eq, lookup_insert_ne, lookup_insert_eq
           by congruence; reflexivity|].
      destruct (decide (k = cc2)) as [->|H2];
        [rewrite lookup_insert_ne, !lookup_insert_eq by congruence;
         reflexivity|].
      rewrite !lookup_insert_ne by congruence. reflexivity.
    + unfold incrementCountry. rewrite E1, E2. cbn [setCounts].
      rewrite Hw. cbn [fst snd setCounts]. rewrite Hw. split; reflexivity.
  - unfold incrementCountry. rewrite E1, E2. split; reflexivity.
Qed.

(** After [clearCounts], in a storage that accepts writes, the stored counts
    are empty, and a following increment leaves exactly one counter: the
    normalised code at the delta. *)
Theorem clearCounts_then_increment (c cc : string) (d : option Delta)
    (ls : Storage) :
  writable ls = true ->
  normalizeCountryCode (Some c) = Some cc ->
  getCounts (fst (clearCounts (Some ls))) = ∅
  /\ getCounts (fst (incrementCountry c d (fst (clearCounts (Some ls)))))
     = {[ cc := (0 + increment_of d)%Q ]}.
Proof.
  intros Hw Hn. unfold clearCounts. cbn [setCounts]. rewrite Hw. cbn [fst].
  split; [reflexivity|].
  rewrite (incrementCountry_working c cc d (mkStorage _ true) eq_refl Hn). cbn [fst getCounts item].
  rewrite lookup_empty. reflexivity.
Qed.

End CounterFacts.

Lemma incrementCountry_accumulates_witness :
  Leaderboard.getCounts
    (fst (Leaderboard.incrementCountry "US" (Some (Leaderboard.Finite 2))
            (fst (Leaderboard.incrementCountry " us" None
                    (Some (Leaderboard.mkStorage
                             (Some {[ "US"%string := 4%Q ]}) true))))))
    !! "US"%string
  = Some (4 + 1 + 2)%Q.
Proof.
  exact (proj1 (incrementCountry_accumulates " us" "US" "US" None
                  (Some (Leaderboard.Finite 2))
                  (Leaderboard.mkStorage (Some {[ "US"%string := 4%Q ]}) true)
                  eq_refl eq_refl eq_refl)).
Defined.

Lemma incrementCountry_counts_commute_witness :
  Leaderboard.getCounts
    (fst (Leaderboard.incrementCountry "US" None
            (fst (Leaderboard.incrementCountry "FR" None
                    (Some (Leaderboard.mkStorage None true))))))
    !! "FR"%string
  = Leaderboard.getCounts
      (fst (Leaderboard.incrementCountry "FR" None
              (fst (Leaderboard.incrementCountry "US" None
                      (Some (Leaderboard.mkStorage None true))))))
      !! "FR"%string.
Proof.
  refine (proj1 (incrementCountry_counts_commute "US" "FR" None None
                   (Some (Leaderboard.mkStorage None true)) "FR" _)).
  intros E. vm_compute in E. discriminate E.
Defined.

Lemma clearCounts_then_increment_witness :
  Leaderboard.getCounts
    (fst (Leaderboard.incrementCountry "gr" (Some Leaderboard.NotFinite)
            (fst (Leaderboard.clearCounts
                    (Some (Leaderboard.mkStorage
                             (Some {[ "US"%string := 4%Q ]}) true))))))
  = {[ "GR"%string := (0 + 1)%Q ]}.
Proof.
  exact (proj2 (clearCounts_then_increment "gr" "GR"
                  (Some Leaderboard.NotFinite)
                  (Leaderboard.mkStorage (Some {[ "US"%string := 4%Q ]}) true)
                  eq_refl eq_refl)).
Defined.

Section BoardFacts.
Import Leaderboard.
Open Scope Q_scope.

Lemma place_perm (x : CountryCount) (l : list CountryCount) :
  Permutation (place x l) (x :: l).
Proof.
  induction l as [|y r IH]; simpl; [reflexivity|].
  destruct (Qle_bool (count y) (count x)); [reflexivity|].
  rewrite IH. apply perm_swap.
Qed.

Lemma sortByCount_perm (l : list CountryCount) :
  Permutation (sortByCount l) l.
Proof.
  induction l as [|x r IH]; simpl; [reflexivity|].
  rewrite place_perm, IH. reflexivity.
Qed.

Lemma place_sorted (x : CountryCount) (l : list CountryCount) :
  StronglySorted outranks l -> StronglySorted outranks (place x l).
Proof.
  induction l as [|y r IH]; intros Hs; simpl.
  - constructor; constructor.
  - inversion Hs as [|? ? Hr Hall]; subst.
    destruct (Qle_bool (count y) (count x)) eqn:E.
    + apply Qle_bool_iff in E. constructor; [exact Hs|].
      constructor; [exact E|].
      eapply Forall_impl; [exact Hall|].
      intros z Hz. unfold outranks in *. lra.
    + assert (Hlt : count x < count y).
      { apply Qnot_le_lt. intros Hle. apply Qle_bool_iff in Hle. congruence. }
      constructor; [exact (IH Hr)|].
      rewrite (place_perm x r). constructor; [|exact Hall].
      unfold outranks. lra.
Qed.

Lemma sortByCount_sorted (l : list CountryCount) :
  StronglySorted outranks (sortByCount l).
Proof.
  induction l as [|x r IH]; simpl; [constructor|].
  apply place_sorted. exact IH.
Qed.

Lemma sorted_app (l1 l2 : list CountryCount) :
  StronglySorted outranks (l1 ++ l2) ->
  StronglySorted outranks l1
  /\ forall x y, In x l1 -> In y l2 -> outranks x y.
Proof.
  induction l1 as [|a r IH]; intros Hs.
  - split; [constructor | intros x y []].
  - inversion Hs as [|? ? Hr Hall]; subst.
    destruct (IH Hr) as [Hf Hcross].
    pose proof (proj1 (List.Forall_forall _ _) Hall) as Ha. split.
    + constructor; [exact Hf|].
      apply List.Forall_forall. intros z Hz. apply Ha, in_or_app. tauto.
    + intros x y [<-|Hx] Hy; [|exact (Hcross x y Hx Hy)].
      apply Ha, in_or_app. tauto.
Qed.

Lemma sorted_split (k : nat) (l : list CountryCount) :
  StronglySorted outranks l ->
  StronglySorted outranks (firstn k l)
  /\ forall x y, In x (firstn k l) -> In y (skipn k l) -> outranks x y.
Proof.
  intros Hs. apply sorted_app. rewrite firstn_skipn. exact Hs.
Qed.

Lemma place_ties (q : Q) (x : CountryCount) (l : list CountryCount) :
  filter (fun it => Qeq_bool (count it) q) (place x l)
  = filter (fun it => Qeq_bool (count it) q) (x :: l).
Proof.
  induction l as [|y r IH]; [reflexivity|]. cbn [place].
  destruct (Qle_bool (count y) (count x)) eqn:E; [reflexivity|].
  assert (Hlt : count x < count y).
  { apply Qnot_le_lt. intros Hle. apply Qle_bool_iff in Hle. congruence. }
  rewrite filter_cons, IH, !filter_cons.
  destruct (decide (Qeq_bool (count x) q)) as [Hx|Hx];
    destruct (decide (Qeq_bool (count y) q)) as [Hy|Hy]; try reflexivity.
  exfalso. apply Is_true_eq_true in Hx, Hy.
  apply Qeq_bool_iff in Hx, Hy. lra.
Qed.

(** [topN] returns at most [n] items, truncating [n] to an integer, and at
    most as many as there are entries; for [n] below 1 (zero, negative) it
    returns none. *)
Theorem topN_length (entries : list (string * Q)) (n : Q) :
  length (topN entries n)
  = Nat.min (Z.to_nat (Qfloor (Qmax 0 n))) (length entries)
  /\ (n < 1 -> topN entries n = []).
Proof.
  unfold topN. split.
  - rewrite length_firstn, (Permutation_length (sortByCount_perm _)),
      length_map. reflexivity.
  - intros Hn.
    assert (Hz : Qfloor (Qmax 0 n) = 0%Z).
    { assert (H0 : 0 <= Qmax 0 n) by apply Q.le_max_l.
      assert (H1 : Qmax 0 n < 1) by (apply Q.max_lub_lt; [reflexivity | exact Hn]).
      pose proof (Qfloor_le (Qmax 0 n)) as Hlo.
      pose proof (Qlt_floor (Qmax 0 n)) as Hhi.
      assert (Ha : (0 <= Qfloor (Qmax 0 n))%Z).
      { apply Z.lt_succ_r. rewrite <- Z.add_1_r. rewrite Zlt_Qlt.
        change (inject_Z 0) with 0. lra. }
      assert (Hb : (Qfloor (Qmax 0 n) < 1)%Z).
      { rewrite Zlt_Qlt. change (inject_Z 1) with 1. lra. }
      lia. }
    rewrite Hz. reflexivity.
Qed.

(** The items [topN] returns are in decreasing order of count, each is an
    entry of the counts, and no entry left out has a larger count than an
    item returned: the entries are the returned items plus a rest that they
    all outrank. *)
Theorem topN_ranks (entries : list (string * Q)) (n : Q) :
  StronglySorted outranks (topN entries n)
  /\ exists rest,
       Permutation
         (map (fun e => mkCountryCount (fst e) (snd e)) entries)
         (topN entries n ++ rest)
       /\ forall x y, In x (topN entries n) -> In y rest -> count y <= count x.
Proof.
  unfold topN.
  set (items := map (fun e => mkCountryCount (fst e) (snd e)) entries).
  set (k := Z.to_nat (Qfloor (Qmax 0 n))).
  destruct (sorted_split k _ (sortByCount_sorted items)) as [Hs Hcross].
  split; [exact Hs|].
  exists (skipn k (sortByCount items)). split; [|exact Hcross].
  rewrite firstn_skipn. symmetry. apply sortByCount_perm.
Qed.

(** The sort of [topN] is stable: the entries that share a count stand on
    the board in the order the counts object lists them, and when [n] covers
    all entries the board is the whole sorted list. *)
Theorem topN_stable (entries : list (string * Q)) (n q : Q) :
  inject_Z (Z.of_nat (length entries)) <= n ->
  let items := map (fun e => mkCountryCount (fst e) (snd e)) entries in
  topN entries n = sortByCount items
  /\ filter (fun it => Qeq_bool (count it) q) (topN entries n)
     = filter (fun it => Qeq_bool (count it) q) items.
Proof.
  intros Hn items.
  assert (Hall : topN entries n = sortByCount items).
  { unfold topN. fold items. apply firstn_all2.
    rewrite (Permutation_length (sortByCount_perm _)). subst items.
    rewrite length_map.
    assert (Hle : inject_Z (Z.of_nat (length entries)) <= Qmax 0 n).
    { eapply Qle_trans; [exact Hn | apply Q.le_max_r]. }
    apply Qfloor_resp_le in Hle. rewrite Qfloor_Z in Hle. lia. }
  split; [exact Hall|]. rewrite Hall. clear Hall Hn.
  induction items as [|x r IH]; [reflexivity|].
  cbn [sortByCount fold_right]. fold (sortByCount r).
  rewrite place_ties, !filter_cons, IH. reflexivity.
Qed.

End BoardFacts.

Lemma topN_length_witness :
  length (Leaderboard.topN
            [("US"%string, 5%Q); ("FR"%string, 7%Q); ("GR"%string, 5%Q)] 2.9)
  = 2%nat
  /\ Leaderboard.topN [("US"%string, 5%Q); ("FR"%string, 7%Q)] 0.5 = [].
Proof.
  split.
  - exact (proj1 (topN_length
                    [("US"%string, 5%Q); ("FR"%string, 7%Q); ("GR"%string, 5%Q)]
                    2.9)).
  - apply (proj2 (topN_length [("US"%string, 5%Q); ("FR"%string, 7%Q)] 0.5)).
    reflexivity.
Defined.

Lemma topN_ranks_witness :
  StronglySorted Leaderboard.outranks
    (Leaderboard.topN
       [("US"%string, 5%Q); ("FR"%string, 7%Q); ("GR"%string, 5%Q)] 2).
Proof.
  exact (proj1 (topN_ranks
                  [("US"%string, 5%Q); ("FR"%string, 7%Q); ("GR"%string, 5%Q)]
                  2)).
Defined.

Lemma topN_stable_witness :
  filter (fun it => Qeq_bool (Leaderboard.count it) 5)
    (Leaderboard.topN
       [("US"%string, 5%Q); ("FR"%string, 7%Q); ("GR"%string, 5%Q)] 5)
  = [Leaderboard.mkCountryCount "US" 5; Leaderboard.mkCountryCount "GR" 5].
Proof.
  refine (proj2 (topN_stable
                   [("US"%string, 5%Q); ("FR"%string, 7%Q); ("GR"%string, 5%Q)]
                   5 5 _)).
  vm_compute. discriminate.
Defined.

Section FlagFacts.
Import Leaderboard.
Open Scope Z_scope.

Lemma is_upper_range (c : ascii) :
  is_upper c = true -> 65 <= Z.of_nat (nat_of_ascii c) <= 90.
Proof.
  unfold is_upper. intros Hu. apply andb_true_iff in Hu.
  destruct Hu as [Hlo Hhi]. apply Nat.leb_le in Hlo, Hhi. lia.
Qed.

Lemma flag_of_code (input cc : string) :
  normalizeCountryCode (Some input) = Some cc ->
  exists a b,
    cc = String a (String b EmptyString)
    /\ is_upper a = true /\ is_upper b = true
    /\ codeToFlagEmoji input
       = [0x1f1e6 + (Z.of_nat (nat_of_ascii a) - 0x41);
          0x1f1e6 + (Z.of_nat (nat_of_ascii b) - 0x41)].
Proof.
  intros Hn. destruct (normalize_fixed _ _ Hn) as (Ht & _).
  destruct (test_AZ2_shape cc Ht) as (a & b & -> & Ha & Hb).
  exists a, b. unfold codeToFlagEmoji. rewrite Hn. auto.
Qed.

(** [codeToFlagEmoji] answers the white flag (U+1F3F3 U+FE0F) exactly for the
    inputs that do not normalise; for the others it answers two regional
    indicator symbols (U+1F1E6 .. U+1F1FF), one per letter, and two inputs
    get the same flag only if they normalise to the same code. *)
Theorem codeToFlagEmoji_faithful (c1 c2 : string) :
  (normalizeCountryCode (Some c1) = None <-> codeToFlagEmoji c1 = WHITE_FLAG)
  /\ (forall cc, normalizeCountryCode (Some c1) = Some cc ->
        exists p q, codeToFlagEmoji c1 = [p; q]
                    /\ 0x1f1e6 <= p <= 0x1f1ff /\ 0x1f1e6 <= q <= 0x1f1ff)
  /\ (codeToFlagEmoji c1 = codeToFlagEmoji c2 ->
        normalizeCountryCode (Some c1) = normalizeCountryCode (Some c2)).
Proof.
  assert (Hwhite : forall c cc, normalizeCountryCode (Some c) = Some cc ->
                     codeToFlagEmoji c <> WHITE_FLAG).
  { intros c cc Hn. destruct (flag_of_code c cc Hn) as (a & b & _ & Ha & _ & ->).
    pose proof (is_upper_range a Ha). unfold WHITE_FLAG. intros [= Hp _]. lia. }
  split; [|split].
  - split.
    + intros Hn. unfold codeToFlagEmoji. rewrite Hn. reflexivity.
    + intros Hf. destruct (normalizeCountryCode (Some c1)) as [cc|] eqn:E;
        [|reflexivity].
      destruct (Hwhite c1 cc E Hf).
  - intros cc Hn. destruct (flag_of_code c1 cc Hn) as (a & b & _ & Ha & Hb & ->).
    pose proof (is_upper_range a Ha). pose proof (is_upper_range b Hb).
    eexists _, _. split; [reflexivity|]. lia.
  - intros Heq.
    destruct (normalizeCountryCode (Some c1)) as [cc1|] eqn:E1;
      destruct (normalizeCountryCode (Some c2)) as [cc2|] eqn:E2.
    + destruct (flag_of_code c1 cc1 E1) as (a1 & b1 & -> & _ & _ & F1).
      destruct (flag_of_code c2 cc2 E2) as (a2 & b2 & -> & _ & _ & F2).
      rewrite F1, F2 in Heq. injection Heq as Hp Hq.
      assert (Ha : nat_of_ascii a1 = nat_of_ascii a2) by lia.
      assert (Hb : nat_of_ascii b1 = nat_of_ascii b2) by lia.
      rewrite <- (ascii_nat_embedding a1), <- (ascii_nat_embedding a2), Ha.
      rewrite <- (ascii_nat_embedding b1), <- (ascii_nat_embedding b2), Hb.
      reflexivity.
    + exfalso. apply (Hwhite c1 cc1 E1). rewrite Heq.
      unfold codeToFlagEmoji. rewrite E2. reflexivity.
    + exfalso. apply (Hwhite c2 cc2 E2). rewrite <- Heq.
      unfold codeToFlagEmoji. rewrite E1. reflexivity.
    + reflexivity.
Qed.

End FlagFacts.

Lemma codeToFlagEmoji_faithful_witness :
  Leaderboard.codeToFlagEmoji " gr " = [0x1f1ec; 0x1f1f7]%Z
  /\ Leaderboard.normalizeCountryCode (Some " gr "%string)
     = Leaderboard.normalizeCountryCode (Some "GR"%string).
Proof.
  split; [reflexivity|].
  apply (proj2 (proj2 (codeToFlagEmoji_faithful " gr " "GR"))).
  reflexivity.
Defined.

Section NumericFacts.
Import Leaderboard.
Variable whereNumeric : string -> option string.

Lemma repeat_char_length (c : ascii) (n : nat) :
  String.length (repeat_char c n) = n.
Proof. induction n as [|n IH]; simpl; [reflexivity | rewrite IH; reflexivity]. Qed.

Lemma append_length (s1 s2 : string) :
  String.length (s1 +:+ s2) = (String.length s1 + String.length s2)%nat.
Proof. induction s1 as [|c s1 IH]; simpl; [reflexivity | rewrite IH; reflexivity]. Qed.

Lemma padStart_long (n : nat) (c : ascii) (s : string) :
  (n <= String.length s)%nat -> padStart n c s = s.
Proof.
  intros Hle. unfold padStart.
  replace (n - String.length s)%nat with 0%nat by lia. reflexivity.
Qed.

Lemma padStart_idem (n : nat) (c : ascii) (s : string) :
  padStart n c (padStart n c s) = padStart n c s.
Proof.
  apply padStart_long. unfold padStart.
  rewrite append_length, repeat_char_length. lia.
Qed.

(** [alpha2FromNumeric] pads its argument to three digits itself, so an id
    and its zero-padded form resolve alike, as do any two ids with the same
    padded form ("4", "04", "004"); null resolves to null; a code it returns
    is non-empty, has no lower-case ASCII letter and is the upper-cased
    alpha-2 field of the table entry under the padded id. *)
Theorem alpha2FromNumeric_padding (n m : string) :
  alpha2FromNumeric whereNumeric (Some (padStart 3 "0" n))
  = alpha2FromNumeric whereNumeric (Some n)
  /\ (padStart 3 "0" n = padStart 3 "0" m ->
        alpha2FromNumeric whereNumeric (Some n)
        = alpha2FromNumeric whereNumeric (Some m))
  /\ alpha2FromNumeric whereNumeric None = None
  /\ (forall k, alpha2FromNumeric whereNumeric (Some n) = Some k ->
        truthy k = true /\ toUpperCase k = k
        /\ exists a, whereNumeric (padStart 3 "0" n) = Some a
                     /\ k = toUpperCase a).
Proof.
  split; [|split; [|split]].
  - unfold alpha2FromNumeric. rewrite padStart_idem. reflexivity.
  - intros Hpad. unfold alpha2FromNumeric. rewrite Hpad. reflexivity.
  - reflexivity.
  - intros k. unfold alpha2FromNumeric.
    destruct (whereNumeric (padStart 3 "0" n)) as [a|]; [|discriminate].
    destruct (truthy a) eqn:Et; [|discriminate].
    intros [= <-]. rewrite truthy_toUpperCase, toUpperCase_idem. eauto.
Qed.

End NumericFacts.

Lemma alpha2FromNumeric_padding_witness :
  Leaderboard.alpha2FromNumeric Toy.table (Some "76"%string)
  = Leaderboard.alpha2FromNumeric Toy.table (Some "076"%string).
Proof.
  apply (proj1 (proj2 (alpha2FromNumeric_padding Toy.table "76" "076"))).
  reflexivity.
Defined.

(** ** More of the world map *)

Section SizeFacts.
Import World.
Open Scope Q_scope.
Context {G : Type} `{GeoLib G}.

(** [setSize] keeps the device pixel ratio within [1, 2] whatever the window
    reports (a ratio already there is kept as it is), floors the viewport to
    whole pixels, and gives the canvas a backing store between once and twice
    the logical width. *)
Theorem setSize_pixel_ratio (v : Viewport) (st : State G) :
  let st' := setSize v st in
  1 <= dpr st' <= 2
  /\ (1 <= devicePixelRatio v <= 2 -> dpr st' == devicePixelRatio v)
  /\ width st' <= rect_width v < width st' + 1
  /\ canvas_width st' = inject_Z (Qfloor (width st' * dpr st'))
  /\ (0 <= rect_width v ->
        width st' <= canvas_width st' <= 2 * width st').
Proof.
  intros st'. subst st'. unfold setSize. cbn [dpr width canvas_width].
  set (ratio := if Qeq_bool (devicePixelRatio v) 0 then 1
                else devicePixelRatio v).
  set (d := Qmax 1 (Qmin ratio 2)).
  set (w := inject_Z (Qfloor (rect_width v))).
  assert (Hd : 1 <= d <= 2).
  { subst d. split; [apply Q.le_max_l|].
    apply Q.max_lub; [discriminate | apply Q.le_min_r]. }
  split; [exact Hd|]. split; [|split; [|split]].
  - intros [Hlo Hhi]. subst d ratio.
    destruct (Qeq_bool (devicePixelRatio v) 0) eqn:E.
    + apply Qeq_bool_iff in E. lra.
    + rewrite Q.min_l by exact Hhi. rewrite Q.max_r by exact Hlo. reflexivity.
  - subst w. split; [apply Qfloor_le|].
    pose proof (Qlt_floor (rect_width v)) as Hlt.
    rewrite inject_Z_plus in Hlt. exact Hlt.
  - reflexivity.
  - intros Hpos.
    assert (Hw : 0 <= w).
    { subst w. apply Qfloor_resp_le in Hpos. change (Qfloor 0) with 0%Z in Hpos.
      change 0 with (inject_Z 0). rewrite <- Zle_Qle. exact Hpos. }
    assert (Hlo : w <= w * d) by nra.
    assert (Hhi : w * d <= 2 * w) by nra.
    split.
    + subst w. apply Qfloor_resp_le in Hlo. rewrite Qfloor_Z in Hlo.
      rewrite <- Zle_Qle. exact Hlo.
    + eapply Qle_trans; [apply Qfloor_le | exact Hhi].
Qed.

(** The extent handed to [fitExtent] is padded by at least 12 pixels on every
    side, and it is a proper rectangle (its low corner strictly below its high
    corner) exactly when the smaller viewport side exceeds 24 pixels. *)
Theorem fitProjection_extent (w h : Q) (land : G) :
  exists padding,
    12 <= padding
    /\ (padding == 12 <-> Qmin w h * 0.028 <= 12)
    /\ (24 < Qmin w h <-> padding < w - padding /\ padding < h - padding)
    /\ fitProjection w h land
       = match fitExtent (padding, padding) (w - padding, h - padding) land with
         | Some fitted => mkProjection (scale fitted * 1.06) (translate fitted)
         | None => mkProjection (w / (2 * Math_PI) * 1.06) (w / 2, h / 2)
         end.
Proof.
  exists (Qmax 12 (Qmin w h * 0.028)).
  split; [apply Q.le_max_l|]. split; [|split; [|reflexivity]].
  - split.
    + intros Heq. rewrite <- Heq. apply Q.le_max_r.
    + intros Hle. apply Q.max_l. exact Hle.
  - destruct (Q.max_spec 12 (Qmin w h * 0.028)) as [[Hlt ->]|[Hle ->]];
      destruct (Q.min_spec w h) as [[Hwh Hm]|[Hhw Hm]];
      rewrite Hm in *; split; intros; try split; lra.
Qed.

End SizeFacts.

Lemma setSize_pixel_ratio_witness :
  (World.dpr (World.setSize (World.mkViewport 800.5 400.25 3) Toy.world) <= 2)%Q
  /\ (World.canvas_width
        (World.setSize (World.mkViewport 800.5 400.25 3) Toy.world)
      <= 2 * World.width
               (World.setSize (World.mkViewport 800.5 400.25 3) Toy.world))%Q.
Proof.
  destruct (setSize_pixel_ratio (H:=Toy.lib) (World.mkViewport 800.5 400.25 3)
              Toy.world) as ([_ Hd] & _ & _ & _ & Hc).
  split; [exact Hd|]. apply Hc. vm_compute. discriminate.
Defined.

Lemma fitProjection_extent_witness :
  exists padding,
    (padding < 800 - padding /\ padding < 400 - padding)%Q
    /\ World.fitProjection 800 400 Toy.land
       = match World.fitExtent (padding, padding)
                 (800 - padding, 400 - padding)%Q Toy.land with
         | Some fitted =>
             World.mkProjection (World.scale fitted * 1.06)
               (World.translate fitted)
         | None =>
             World.mkProjection (800 / (2 * World.Math_PI) * 1.06)
               ((800 / 2)%Q, (400 / 2)%Q)
         end.
Proof.
  destruct (fitProjection_extent (H:=Toy.lib) 800 400 Toy.land)
    as (padding & _ & _ & Hiff & Heq).
  exists padding. split; [|exact Heq].
  apply Hiff. vm_compute. reflexivity.
Defined.

Section BlipEventFacts.
Import World.
Open Scope Q_scope.
Context {G : Type} `{GeoLib G}.
Variable onCountrySelect : bool.

Abbreviation run := (World.run onCountrySelect).

(** In every state the component reaches, a blip event whose upper-cased
    code has a centroid in the index appends one blip of the requested kind at
    that centroid, starting now; any other blip event (no detail, unknown
    code) changes nothing.  The on-the-fly centroid branch never adds an
    entry, so the index is the same after every blip event. *)
Theorem onBlip_reachable (v0 v1 : Viewport) (load : LoadResult G)
    (evs : list Event) (detail : option (string * BlipKind)) (now : Q) :
  let st := run (init v0 v1 load) evs in
  alpha2ToCentroid (onBlip detail now st) = alpha2ToCentroid st
  /\ match detail with
     | None => onBlip detail now st = st
     | Some (c, k) =>
         match map_get (toUpperCase c) (alpha2ToCentroid st) with
         | Some pos =>
             onBlip detail now st
             = with_blips (blips st ++ [mkBlip (fst pos) (snd pos) k now]) st
         | None => onBlip detail now st = st
         end
     end.
Proof.
  intros st.
  assert (Hc : coherent st) by (apply run_coherent, init_coherent).
  assert (Hcase : match detail with
     | None => onBlip detail now st = st
     | Some (c, k) =>
         match map_get (toUpperCase c) (alpha2ToCentroid st) with
         | Some pos =>
             onBlip detail now st
             = with_blips (blips st ++ [mkBlip (fst pos) (snd pos) k now]) st
         | None => onBlip detail now st = st
         end
     end).
  { destruct detail as [[c k]|]; [|reflexivity]. unfold onBlip.
    destruct (map_get (toUpperCase c) (alpha2ToCentroid st)) eqn:Eg;
      [reflexivity|].
    destruct (projection st) as [p|] eqn:Ep; [|reflexivity].
    destruct (countriesFC st) as [fc|] eqn:Ef; [|reflexivity].
    destruct (find _ _) as [feat|] eqn:Efind; [|reflexivity].
    rewrite (onBlip_fallback_idle st p fc _ feat Hc Ep Ef Eg Efind).
    reflexivity. }
  split; [|exact Hcase].
  destruct detail as [[c k]|]; [|rewrite Hcase; reflexivity].
  destruct (map_get (toUpperCase c) (alpha2ToCentroid st));
    rewrite Hcase; reflexivity.
Qed.

End BlipEventFacts.

Lemma onBlip_reachable_witness :
  World.blips (World.onBlip (Some ("fr"%string, World.Repeat)) 40 Toy.world)
  = [World.mkBlip (460282 # 1125) (106757 # 1125) World.Repeat 40]
  /\ World.onBlip (Some ("zz"%string, World.New)) 40 Toy.world = Toy.world.
Proof.
  pose proof (proj2 (onBlip_reachable (H:=Toy.lib) true Toy.viewport
                       Toy.viewport
                       (World.AllLoaded Toy.land Toy.lines Toy.countries) []
                       (Some ("fr"%string, World.Repeat)) 40)) as Hfr.
  pose proof (proj2 (onBlip_reachable (H:=Toy.lib) true Toy.viewport
                       Toy.viewport
                       (World.AllLoaded Toy.land Toy.lines Toy.countries) []
                       (Some ("zz"%string, World.New)) 40)) as Hzz.
  split.
  - change (World.run true
              (World.init Toy.viewport Toy.viewport
                 (World.AllLoaded Toy.land Toy.lines Toy.countries)) [])
      with Toy.world in Hfr.
    cbv zeta in Hfr. rewrite Hfr. reflexivity.
  - exact Hzz.
Defined.

Section PinSetFacts.
Import World.
Open Scope Q_scope.
Context {G : Type} `{GeoLib G}.
Variable onCountrySelect : bool.

Abbreviation step := (World.step onCountrySelect).
Abbreviation run := (World.run onCountrySelect).

Lemma set_has_In (k : string) (s : list string) :
  set_has k s = true <-> In k s.
Proof.
  unfold set_has. rewrite existsb_exists. split.
  - intros (x & Hin & Heq). apply String.eqb_eq in Heq. subst. exact Hin.
  - intros Hin. exists k. split; [exact Hin | apply String.eqb_refl].
Qed.

Lemma set_add_NoDup (k : string) (s : list string) :
  List.NoDup s -> List.NoDup (set_add k s).
Proof.
  intros Hs. unfold set_add. destruct (set_has k s) eqn:E; [exact Hs|].
  apply List.NoDup_app; [exact Hs | repeat constructor; intros [] |].
  intros x Hx [<-|[]]. apply set_has_In in Hx. congruence.
Qed.

Lemma set_add_present (k : string) (s : list string) :
  In k s -> set_add k s = s.
Proof.
  intros Hin. unfold set_add. apply set_has_In in Hin. rewrite Hin.
  reflexivity.
Qed.

Lemma run_pinned_NoDup (st : State G) (evs : list Event) :
  List.NoDup (pinned st) -> List.NoDup (pinned (run st evs)).
Proof.
  revert st. induction evs as [|ev evs IH]; intros st Hst; [exact Hst|].
  rewrite run_cons. apply IH. rewrite step_pinned.
  destruct ev as [| | | |[c|]| |]; try exact Hst.
  destruct (truthy c); [apply set_add_NoDup|]; exact Hst.
Qed.

(** The pin set behaves as a set keyed by the upper-cased code: in every
    state the component reaches it holds no code twice; a pin event for a code
    already in it changes nothing, so pinning twice is pinning once; and the
    case of the letters delivered does not matter. *)
Theorem pin_set_semantics (v0 v1 : Viewport) (load : LoadResult G)
    (evs : list Event) (c : string) :
  let st := run (init v0 v1 load) evs in
  List.NoDup (pinned st)
  /\ (In (toUpperCase c) (pinned st) -> pinned (onPin (Some c) st) = pinned st)
  /\ onPin (Some c) (onPin (Some c) st) = onPin (Some c) st
  /\ onPin (Some (toUpperCase c)) st = onPin (Some c) st.
Proof.
  intros st. split; [|split; [|split]].
  - apply run_pinned_NoDup. rewrite init_pinned. constructor.
  - intros Hin. unfold onPin. destruct (truthy c); [|reflexivity].
    cbn [pinned with_pinned]. apply set_add_present. exact Hin.
  - unfold onPin. destruct (truthy c) eqn:Et; [|reflexivity].
    unfold with_pinned. cbn.
    rewrite (set_add_present _ _ (set_add_has (toUpperCase c) (pinned st))).
    reflexivity.
  - unfold onPin. rewrite truthy_toUpperCase, toUpperCase_idem. reflexivity.
Qed.

End PinSetFacts.

Lemma pin_set_semantics_witness :
  World.pinned
    (World.onPin (Some "us"%string)
       (World.run true Toy.world [World.PinEvent (Some "US"%string)]))
  = ["US"%string].
Proof.
  destruct (pin_set_semantics (H:=Toy.lib) true Toy.viewport Toy.viewport
              (World.AllLoaded Toy.land Toy.lines Toy.countries)
              [World.PinEvent (Some "US"%string)] "us") as (_ & Hsame & _).
  etransitivity; [apply Hsame; vm_compute; tauto|].
  vm_compute. reflexivity.
Defined.

Section ClickMissFacts.
Import World.
Open Scope Q_scope.
Context {G : Type} `{GeoLib G}.
Variable onCountrySelect : bool.

(** A click is a no-op (state unchanged, nothing emitted) when the point
    cannot be inverse-projected, when no feature contains it, and also when
    the first feature that contains it has no alpha-2 code: the scan stops at
    that feature, whatever features come after it. *)
Theorem click_miss (st : State G) (p : Projection) (fc : list (Feature G))
    (clientX clientY rectLeft rectTop now : Q) :
  projection st = Some p -> countriesFC st = Some fc ->
  let xy := (clientX - rectLeft, clientY - rectTop) in
  (invert p xy = None
   \/ (exists lonlat, invert p xy = Some lonlat
         /\ forall f, In f fc -> geoContains f lonlat = false)
   \/ (exists lonlat pre blocked post,
         invert p xy = Some lonlat
         /\ fc = pre ++ blocked :: post
         /\ (forall f, In f pre -> geoContains f lonlat = false)
         /\ geoContains blocked lonlat = true
         /\ featureAlpha2 blocked = None)) ->
  onClick onCountrySelect clientX clientY rectLeft rectTop now st = (st, []).
Proof.
  intros Hp Hfc xy Hmiss. unfold onClick. rewrite Hp, Hfc. fold xy.
  destruct Hmiss as [Hinv|[(lonlat & Hinv & Hnone)|
                           (lonlat & pre & blocked & post & Hinv & -> & Hpre
                            & Hb & Hcode)]];
    rewrite Hinv; [reflexivity| |].
  - destruct (find _ fc) as [f|] eqn:Ef; [|reflexivity].
    apply find_some in Ef. destruct Ef as [Hin Hcon].
    rewrite (Hnone f Hin) in Hcon. discriminate.
  - rewrite (find_first _ pre post blocked Hpre Hb).
    unfold featureAlpha2 in Hcode. rewrite Hcode. reflexivity.
Qed.

End ClickMissFacts.

Lemma click_miss_witness :
  World.onClick true 400 300 0 0 1000 Toy.world = (Toy.world, []).
Proof.
  refine (click_miss (H:=Toy.lib) true Toy.world
            (World.mkProjection (82256 # 36000) (800 # 2, 400 # 2))
            Toy.countries 400 300 0 0 1000 eq_refl eq_refl _).
  right. left. eexists. split; [vm_compute; reflexivity|].
  intros f [<-|[<-|[<-|[<-|[]]]]]; vm_compute; reflexivity.
Defined.

Section EmittedFacts.
Import World.
Open Scope Q_scope.
Context {G : Type} `{GeoLib G}.
Variable onCountrySelect : bool.

Abbreviation step := (World.step onCountrySelect).
Abbreviation run := (World.run onCountrySelect).
Abbreviation trace := (World.trace onCountrySelect).

Lemma step_emits_feature_code (st : State G) (ev : Event) (a : string) :
  coherent st ->
  (In (CountrySelect a) (snd (step st ev))
   \/ exists x y, In (Hover (Some a) x y) (snd (step st ev))) ->
  exists fc feat, countriesFC st = Some fc /\ In feat fc
                  /\ featureAlpha2 feat = Some a.
Proof.
  intros Hc Hem.
  destruct ev as [v|cx cy l t now|cx cy l t| |code|detail now|now];
    cbn [World.step snd] in Hem.
  - destruct Hem as [[]|(x & y & [])].
  - unfold onClick in Hem.
    destruct (projection st) as [p|];
      [|destruct Hem as [[]|(x & y & [])]].
    destruct (countriesFC st) as [fc|] eqn:Ef;
      [|destruct Hem as [[]|(x & y & [])]].
    destruct (invert _ _) as [lonlat|];
      [|destruct Hem as [[]|(x & y & [])]].
    destruct (find _ fc) as [matched|] eqn:Efind;
      [|destruct Hem as [[]|(x & y & [])]].
    destruct (alpha2FromNumeric _) as [alpha2|] eqn:Ea;
      [|destruct Hem as [[]|(x & y & [])]].
    cbn [snd] in Hem. apply find_some in Efind.
    exists fc, matched. split; [reflexivity|]. split; [tauto|].
    destruct onCountrySelect.
    + destruct Hem as [[[= <-]|[]]|(x & y & [[=]|[]])]. exact Ea.
    + destruct Hem as [[]|(x & y & [])].
  - destruct Hem as [Hsel|(x & y & Hhov)].
    + exfalso. unfold onPointerMove in Hsel.
      destruct (projection st); [|destruct Hsel].
      destruct (alpha2ToCentroid st); [destruct Hsel|].
      destruct (nearestCentroid _ _ _) as [[code d2]|];
        [destruct (sqrt_leb d2 threshold)|];
        destruct Hsel as [[=]|[]].
    + unfold onPointerMove in Hhov.
      destruct (projection st) as [p|] eqn:Ep; [|destruct Hhov].
      destruct (alpha2ToCentroid st) as [|e r] eqn:Ei; [destruct Hhov|].
      pose proof (nearestCentroid_spec (cx - l) (cy - t) (e :: r)) as Hn.
      destruct (nearestCentroid _ _ _) as [[code d2]|];
        [|destruct Hhov as [[=]|[]]].
      destruct Hn as (c & Hin & _).
      destruct (sqrt_leb d2 threshold); destruct Hhov as [[=]|[]]; subst.
      destruct Hc as (Hidx & _). rewrite Hidx in Ei. unfold currentIndex in Ei.
      rewrite Ep in Ei. destruct (countriesFC st) as [fc|]; [|discriminate].
      assert (Hk : In a (keys (buildIndex p fc))).
      { rewrite Ei. exact (in_map fst _ _ Hin). }
      apply buildIndex_keys in Hk. destruct Hk as (feat & Hf & Ha & _).
      exists fc, feat. auto.
  - destruct Hem as [[[=]|[]]|(x & y & [[=]|[]])].
  - destruct Hem as [[]|(x & y & [])].
  - destruct Hem as [[]|(x & y & [])].
  - rewrite frame_ops in Hem.
    destruct Hem as [Hin|(x & y & Hin)]; apply in_map_iff in Hin;
      destruct Hin as (op & [=] & _).
Qed.

(** Every country code the component hands out during a session, to the
    selection callback or in a hover event, is the alpha-2 code of a feature
    of the loaded collection; with a failed load none is ever handed out. *)
Theorem emitted_codes_are_features (v0 v1 : Viewport) (load : LoadResult G)
    (evs : list Event) (a : string) :
  (In (CountrySelect a) (trace (init v0 v1 load) evs)
   \/ exists x y, In (Hover (Some a) x y) (trace (init v0 v1 load) evs)) ->
  exists land lines fc feat,
    load = AllLoaded land lines fc /\ In feat fc
    /\ featureAlpha2 feat = Some a.
Proof.
  assert (Hgen : forall st,
            coherent st ->
            (In (CountrySelect a) (trace st evs)
             \/ exists x y, In (Hover (Some a) x y) (trace st evs)) ->
            exists fc feat, countriesFC st = Some fc /\ In feat fc
                            /\ featureAlpha2 feat = Some a).
  { induction evs as [|ev rest IH]; intros st Hc Hem.
    - destruct Hem as [[]|(x & y & [])].
    - cbn [World.trace] in Hem.
      assert (Hsplit :
        (In (CountrySelect a) (snd (step st ev))
         \/ exists x y, In (Hover (Some a) x y) (snd (step st ev)))
        \/ (In (CountrySelect a) (trace (fst (step st ev)) rest)
            \/ exists x y,
                 In (Hover (Some a) x y) (trace (fst (step st ev)) rest))).
      { destruct Hem as [Hin|(x & y & Hin)]; apply in_app_or in Hin;
          destruct Hin as [Hin|Hin]; eauto 6. }
      destruct Hsplit as [Hnow|Hlater].
      + exact (step_emits_feature_code st ev a Hc Hnow).
      + destruct (IH _ (step_coherent onCountrySelect st ev Hc) Hlater)
          as (fc & feat & Hf & Hin & Ha).
        destruct (step_geometry onCountrySelect st ev) as (_ & _ & Hfc).
        rewrite Hfc in Hf. eauto. }
  intros Hem.
  destruct (Hgen _ (init_coherent v0 v1 load) Hem) as (fc & feat & Hf & Hin & Ha).
  destruct (init_geometry v0 v1 load) as (_ & _ & Hfc). rewrite Hfc in Hf.
  destruct load as [| | |land lines fc']; try discriminate.
  injection Hf as <-. eauto 8.
Qed.

End EmittedFacts.

Lemma emitted_codes_are_features_witness :
  exists feat, In feat Toy.countries /\ World.featureAlpha2 feat = Some "US"%string.
Proof.
  destruct (emitted_codes_are_features (H:=Toy.lib) true Toy.viewport
              Toy.viewport (World.AllLoaded Toy.land Toy.lines Toy.countries)
              [World.Frame 1; World.Click 172 108 0 0 1000] "US")
    as (land & lines & fc & feat & Hload & Hin & Ha).
  - left. vm_compute. tauto.
  - injection Hload as _ _ <-. exists feat. split; [exact Hin | exact Ha].
Defined.

Section TieFacts.
Import World.
Open Scope Q_scope.
Context {G : Type} `{GeoLib G}.

Lemma fold_nearer_holds (mx my : Q) (post : list (string * Point))
    (k : string) (c : Point) :
  (forall k' c', In (k', c') post -> dist2 mx my c <= dist2 mx my c') ->
  fold_left (nearer mx my) post (Some (k, dist2 mx my c))
  = Some (k, dist2 mx my c).
Proof.
  induction post as [|[k' c'] r IH]; intros Hfar; [reflexivity|].
  cbn [fold_left]. unfold nearer at 2. cbn [fst snd].
  fold (dist2 mx my c').
  assert (Hle : dist2 mx my c <= dist2 mx my c')
    by (apply (Hfar k'); left; reflexivity).
  apply Qltb_false in Hle. rewrite Hle.
  apply IH. intros k0 c0 Hin. apply (Hfar k0). right. exact Hin.
Qed.

(** Among the indexed centroids nearest to the pointer, the one that entered
    the index first is the one reported: an entry strictly nearer than all
    entries before it and at least as near as all entries after it is the
    hover target when it lies within the 20 pixel threshold, and "no country"
    is reported when it does not. *)
Theorem hover_first_nearest (st : State G) (p : Projection)
    (pre post : list (string * Point)) (k : string) (c : Point)
    (clientX clientY rectLeft rectTop : Q) :
  projection st = Some p ->
  alpha2ToCentroid st = pre ++ (k, c) :: post ->
  let mx := clientX - rectLeft in
  let my := clientY - rectTop in
  (forall k' c', In (k', c') pre -> dist2 mx my c < dist2 mx my c') ->
  (forall k' c', In (k', c') post -> dist2 mx my c <= dist2 mx my c') ->
  onPointerMove clientX clientY rectLeft rectTop st
  = [Hover (if Qle_bool (dist2 mx my c) (20 * 20) then Some k else None)
       mx my].
Proof.
  intros Hp Hidx mx my Hpre Hpost.
  assert (Hn : nearestCentroid mx my (pre ++ (k, c) :: post)
               = Some (k, dist2 mx my c)).
  { unfold nearestCentroid. rewrite fold_left_app. cbn [fold_left].
    pose proof (nearest_fold mx my pre [] None eq_refl) as Hacc.
    cbn [app] in Hacc.
    assert (Hk : nearer mx my (fold_left (nearer mx my) pre None) (k, c)
                 = Some (k, dist2 mx my c)).
    { destruct (fold_left (nearer mx my) pre None) as [[k0 d0]|];
        [|reflexivity].
      destruct Hacc as (c0 & Hin & -> & _).
      pose proof (Hpre k0 c0 Hin) as Hlt. apply Qltb_true in Hlt.
      unfold nearer. cbn [fst snd].
      change ((c.1 - mx) * (c.1 - mx) + (c.2 - my) * (c.2 - my))
        with (dist2 mx my c).
      rewrite Hlt. reflexivity. }
    rewrite Hk. apply fold_nearer_holds. exact Hpost. }
  unfold onPointerMove. rewrite Hp, Hidx. fold mx my.
  destruct pre as [|e pre']; cbn [app] in Hn |- *; rewrite Hn;
    unfold sqrt_leb, threshold, dispatchHover;
    destruct (Qle_bool _ _); reflexivity.
Qed.

End TieFacts.

Lemma hover_first_nearest_witness :
  World.onPointerMove 10 0 0 0
    (World.with_index [("AA"%string, (0, 0)%Q); ("BB"%string, (20, 0)%Q)]
       Toy.world)
  = [World.Hover (Some "AA"%string) (10 - 0) (0 - 0)].
Proof.
  refine (hover_first_nearest
            (World.with_index
               [("AA"%string, (0, 0)%Q); ("BB"%string, (20, 0)%Q)] Toy.world)
            (World.mkProjection (82256 # 36000) (800 # 2, 400 # 2))
            [] [("BB"%string, (20, 0)%Q)] "AA" (0, 0)%Q 10 0 0 0
            eq_refl eq_refl _ _).
  - intros k' c' [].
  - intros k' c' [[= <- <-]|[]]. vm_compute. discriminate.
Defined.

Section PassFacts.
Import World.
Open Scope Q_scope.
Context {G : Type} `{GeoLib G}.

Lemma drawBlip_None (now : Q) (b : Blip) :
  drawBlip (G:=G) now b = None <-> live now b = false.
Proof.
  unfold drawBlip, live, elapsed, duration. rewrite negb_false_iff.
  destruct (blip_kind b).
  - destruct (Qltb NEW_DURATION (now - blip_start b)); split; congruence.
  - destruct (Qltb REPEAT_DURATION (now - blip_start b)); split; congruence.
Qed.

Lemma drawBlips_filter (now : Q) (bs : list Blip) :
  snd (drawBlips (G:=G) now bs) = List.filter (live now) bs.
Proof.
  induction bs as [|b rest IH]; [reflexivity|]. cbn [drawBlips List.filter].
  destruct (drawBlips now rest) as [ops next]. cbn [snd] in IH.
  destruct (drawBlip (G:=G) now b) as [op|] eqn:E.
  - destruct (live now b) eqn:L; [cbn [snd]; rewrite IH; reflexivity|].
    apply drawBlip_None in L. congruence.
  - apply drawBlip_None in E. rewrite E. exact IH.
Qed.

Lemma filter_absorbs {A : Type} (f g : A -> bool) (l : list A) :
  (forall x, f x = true -> g x = true) ->
  List.filter f (List.filter g l) = List.filter f l.
Proof.
  intros Himp. induction l as [|x r IH]; [reflexivity|]. cbn [List.filter].
  destruct (g x) eqn:Eg; cbn [List.filter]; rewrite IH; [reflexivity|].
  destruct (f x) eqn:Ef; [|reflexivity].
  rewrite (Himp x Ef) in Eg. discriminate.
Qed.

Lemma live_earlier (T1 T2 : Q) (b : Blip) :
  T1 <= T2 -> live T2 b = true -> live T1 b = true.
Proof.
  unfold live, elapsed. rewrite !negb_true_iff. intros Hle H2.
  apply Qltb_false in H2. apply Qltb_false. lra.
Qed.

Lemma frame_state (now : Q) (st : State G) :
  fst (frame now st) = with_blips (List.filter (live now) (blips st)) st.
Proof.
  unfold frame. rewrite <- drawBlips_filter.
  destruct (drawBlips now (blips st)). reflexivity.
Qed.

(** Scheduler passes compose: a pass at [T2] after a pass at an earlier time
    [T1] leaves the same state as the pass at [T2] alone, and repeating a pass
    at the same time changes nothing.  After a pass at [T1] every blip left is
    within its duration at [T1], the blips keep their relative order, and the
    list has not grown. *)
Theorem frame_composes (st : State G) (T1 T2 : Q) :
  T1 <= T2 ->
  fst (frame T2 (fst (frame T1 st))) = fst (frame T2 st)
  /\ fst (frame T1 (fst (frame T1 st))) = fst (frame T1 st)
  /\ Forall (fun b => elapsed T1 b <= duration (blip_kind b))
       (blips (fst (frame T1 st)))
  /\ sublist (blips (fst (frame T1 st))) (blips st)
  /\ (length (blips (fst (frame T1 st))) <= length (blips st))%nat.
Proof.
  intros Hle.
  assert (Hcomp : forall Ta Tb, Ta <= Tb ->
            fst (frame Tb (fst (frame Ta st))) = fst (frame Tb st)).
  { intros Ta Tb Hab. rewrite !frame_state. unfold with_blips. cbn.
    rewrite (filter_absorbs (live Tb) (live Ta)); [reflexivity|].
    intros b. apply live_earlier. exact Hab. }
  split; [exact (Hcomp T1 T2 Hle)|].
  split; [rewrite (Hcomp T1 T1 (Qle_refl T1)); reflexivity|].
  rewrite frame_state. cbn [blips with_blips]. split; [|split].
  - apply List.Forall_forall. intros b Hb. apply List.filter_In in Hb.
    destruct Hb as [_ Hlive]. unfold live in Hlive.
    apply negb_true_iff, Qltb_false in Hlive. exact Hlive.
  - induction (blips st) as [|b r IH]; [constructor|]. cbn [List.filter].
    destruct (live T1 b); [apply sublist_skip | apply sublist_cons]; exact IH.
  - apply List.filter_length_le.
Qed.

End PassFacts.

Lemma frame_composes_witness :
  fst (World.frame 2000 (fst (World.frame 1500 Toy.clicked)))
  = fst (World.frame 2000 Toy.clicked).
Proof.
  apply (frame_composes (H:=Toy.lib) Toy.clicked 1500 2000).
  vm_compute. discriminate.
Defined.

(** ** The page and the pin set *)

Section PageFacts.
Import World.
Open Scope Q_scope.
Context {G : Type} `{GeoLib G}.
Variable onCountrySelect : bool.

Abbreviation step := (World.step onCountrySelect).
Abbreviation run := (World.run onCountrySelect).

Lemma run_app (st : State G) (evs1 evs2 : list Event) :
  run st (evs1 ++ evs2) = run (run st evs1) evs2.
Proof. unfold World.run. apply fold_left_app. Qed.

Lemma set_add_In (k c : string) (s : list string) :
  In k (set_add c s) <-> In k s \/ k = c.
Proof.
  unfold set_add. destruct (set_has c s) eqn:E.
  - apply set_has_In in E. split; [tauto|]. intros [Hin| ->]; assumption.
  - rewrite in_app_iff. simpl. split; [intros [?|[?|[]]]; auto | intros [?| ->]; auto].
Qed.

Lemma pinEffect_pins (entries : list (string * Q)) (st : State G) (k : string) :
  In k (pinned (run st (Page.pinEffect entries))) <->
  In k (pinned st)
  \/ exists code clicks, In (code, clicks) entries /\ 10 <= clicks
                         /\ truthy code = true /\ k = toUpperCase code.
Proof.
  revert st. induction entries as [|[code clicks] rest IH]; intros st.
  - cbn. split; [tauto|]. intros [Hin|(c & n & [] & _)]. exact Hin.
  - unfold Page.pinEffect. cbn [flat_map fst snd]. fold (Page.pinEffect rest).
    rewrite run_app, IH.
    assert (Hhead :
      In k (pinned (run st (if Qle_bool 10 clicks
                            then [PinEvent (Some code)] else [])))
      <-> In k (pinned st)
          \/ (10 <= clicks /\ truthy code = true /\ k = toUpperCase code)).
    { destruct (Qle_bool 10 clicks) eqn:E.
      - apply Qle_bool_iff in E. rewrite run_cons, run_nil, step_pinned.
        destruct (truthy code) eqn:Et.
        + rewrite set_add_In. tauto.
        + split; [tauto|]. intros [?|(_ & [=] & _)]. assumption.
      - rewrite run_nil. split; [tauto|]. intros [?|(Hle & _)]; [assumption|].
        apply Qle_bool_iff in Hle. congruence. }
    rewrite Hhead. split.
    + intros [[Hin|(Hle & Ht & ->)]|(c & n & Hin & Hrest)].
      * left. exact Hin.
      * right. exists code, clicks. split; [left; reflexivity | auto].
      * right. exists c, n. split; [right; exact Hin | exact Hrest].
    + intros [Hin|(c & n & [[= -> ->]|Hin] & Hle & Ht & ->)].
      * left. left. exact Hin.
      * left. right. auto.
      * right. exists c, n. auto.
Qed.

Lemma obj_set_In (k : string) (v : Q) (o : list (string * Q))
    (e : string * Q) :
  In e (Page.obj_set k v o) -> e = (k, v) \/ In e o.
Proof.
  induction o as [|[k' v'] r IH]; cbn [Page.obj_set].
  - intros [<-|[]]. left. reflexivity.
  - destruct (String.eqb k k').
    + intros [<-|Hin]; [left; reflexivity | right; right; exact Hin].
    + intros [<-|Hin]; [right; left; reflexivity|].
      destruct (IH Hin) as [->|Hr]; [left; reflexivity | right; right; exact Hr].
Qed.

Lemma countsFromRows_entries (rows : list (option string * Q))
    (e : string * Q) :
  In e (Page.countsFromRows rows) ->
  exists row, In row rows
              /\ Leaderboard.normalizeCountryCode (fst row) = Some (fst e)
              /\ snd row = snd e.
Proof.
  unfold Page.countsFromRows.
  assert (Hgen : forall acc,
            In e (fold_left
                    (fun map row =>
                       match Leaderboard.normalizeCountryCode (fst row) with
                       | Some code => Page.obj_set code (snd row) map
                       | None => map
                       end) rows acc) ->
            In e acc
            \/ exists row, In row rows
                 /\ Leaderboard.normalizeCountryCode (fst row) = Some (fst e)
                 /\ snd row = snd e).
  { induction rows as [|row rest IH]; intros acc Hin; [left; exact Hin|].
    cbn [fold_left] in Hin. destruct (IH _ Hin) as [Hacc|(r & Hr & Hn & Hv)].
    - destruct (Leaderboard.normalizeCountryCode (fst row)) as [code|] eqn:E;
        [|left; exact Hacc].
      destruct (obj_set_In _ _ _ _ Hacc) as [->|Hold]; [|left; exact Hold].
      right. exists row. split; [left; reflexivity | auto].
    - right. exists r. split; [right; exact Hr | auto]. }
  intros Hin. destruct (Hgen [] Hin) as [[]|Hex]. exact Hex.
Qed.

(** The pin effect of the page, run on the map: afterwards the pin set holds
    what it held before plus the upper-cased code of every counts entry with at
    least ten clicks and a non-empty code, and nothing else. *)
Theorem page_pin_effect (st : State G) (entries : list (string * Q))
    (k : string) :
  In k (pinned (run st (Page.pinEffect entries))) <->
  In k (pinned st)
  \/ exists code clicks, In (code, clicks) entries /\ 10 <= clicks
                         /\ truthy code = true /\ k = toUpperCase code.
Proof. apply pinEffect_pins. Qed.

(** Fed by the page from the rows it fetched, the pin set holds only
    two-upper-case-letter codes: the page normalises every country code
    before it counts it, and a code is pinned exactly when its counts entry
    has at least ten clicks. *)
Theorem fetched_pins_are_valid (v0 v1 : Viewport) (load : LoadResult G)
    (rows : list (option string * Q)) :
  let counts := Page.countsFromRows rows in
  let st := run (init v0 v1 load) (Page.pinEffect counts) in
  Forall (fun k => test_AZ2 k = true) (pinned st)
  /\ (forall k, In k (pinned st) <->
                exists clicks, In (k, clicks) counts /\ 10 <= clicks)
  /\ (forall k clicks, In (k, clicks) counts ->
        exists row, In row rows
                    /\ Leaderboard.normalizeCountryCode (fst row) = Some k
                    /\ snd row = clicks).
Proof.
  intros counts st.
  assert (Hvalid : forall code clicks, In (code, clicks) counts ->
            test_AZ2 code = true /\ truthy code = true
            /\ toUpperCase code = code).
  { intros code clicks Hin.
    destruct (countsFromRows_entries rows _ Hin) as (row & _ & Hn & _).
    cbn [fst] in Hn.
    destruct (normalize_fixed _ _ Hn) as (Ht & _ & Hfix).
    split; [exact Ht|].
    apply normalizeCountryCode_Some in Hfix. destruct Hfix as [_ Heq].
    destruct (test_AZ2_shape code Ht) as (a & b & -> & Ha & Hb).
    destruct (is_upper_plain a Ha) as [_ Ua].
    destruct (is_upper_plain b Hb) as [_ Ub].
    split; [reflexivity|]. cbn [toUpperCase]. rewrite Ua, Ub. reflexivity. }
  assert (Hiff : forall k, In k (pinned st) <->
                  exists clicks, In (k, clicks) counts /\ 10 <= clicks).
  { intros k. subst st. rewrite pinEffect_pins, init_pinned. split.
    - intros [[]|(code & clicks & Hin & Hle & _ & ->)].
      destruct (Hvalid code clicks Hin) as (_ & _ & ->). eauto.
    - intros (clicks & Hin & Hle). right.
      destruct (Hvalid k clicks Hin) as (_ & Ht & Hup). exists k, clicks. auto. }
  split; [|split; [exact Hiff|]].
  - apply List.Forall_forall. intros k Hk. apply Hiff in Hk.
    destruct Hk as (clicks & Hin & _). exact (proj1 (Hvalid k clicks Hin)).
  - intros k clicks Hin.
    destruct (countsFromRows_entries rows _ Hin) as (row & Hr & Hn & Hv).
    exists row. auto.
Qed.

End PageFacts.

Lemma page_pin_effect_witness :
  In "GR"%string
    (World.pinned
       (World.run true Toy.world
          (Page.pinEffect [("US"%string, 3%Q); ("gr"%string, 12%Q)]))).
Proof.
  apply (page_pin_effect (H:=Toy.lib) true Toy.world).
  right. exists "gr"%string, 12%Q.
  split; [right; left; reflexivity|].
  split; [vm_compute; discriminate|]. split; reflexivity.
Defined.

Lemma fetched_pins_are_valid_witness :
  Forall (fun k => test_AZ2 k = true)
    (World.pinned
       (World.run true Toy.world
          (Page.pinEffect
             (Page.countsFromRows
                [(Some " us "%string, 11%Q); (Some "usa"%string, 50%Q);
                 (None, 20%Q); (Some "fr"%string, 9%Q)])))).
Proof.
  exact (proj1 (fetched_pins_are_valid (H:=Toy.lib) true Toy.viewport
                  Toy.viewport
                  (World.AllLoaded Toy.land Toy.lines Toy.countries)
                  [(Some " us "%string, 11%Q); (Some "usa"%string, 50%Q);
                   (None, 20%Q); (Some "fr"%string, 9%Q)])).
Defined.

(** ** Start-up and resize *)

Section ResizeFacts.
Import World.
Open Scope Q_scope.
Context {G : Type} `{GeoLib G}.

Lemma setSize_settled (v : Viewport) (st : State G) :
  setSize v (setSize v st) = setSize v st.
Proof.
  unfold setSize. cbn. destruct (landGeo st); reflexivity.
Qed.

Lemma setSize_with_index (v : Viewport) (idx : list (string * Point))
    (st : State G) :
  setSize v (with_index idx st) = with_index idx (setSize v st).
Proof. reflexivity. Qed.

(** A resize to the viewport the component already has is a no-op: resizing
    twice to the same viewport leaves the state of resizing once.  Pins and
    blips are never touched by a resize (a blip keeps the screen position it
    was created at). *)
Theorem onResize_idempotent (v : Viewport) (st : State G) :
  onResize v (onResize v st) = onResize v st
  /\ pinned (onResize v st) = pinned st
  /\ blips (onResize v st) = blips st.
Proof.
  split; [|split].
  - assert (Hstep : onResize v st
                    = match projection (setSize v st),
                            countriesFC (setSize v st) with
                      | Some p, Some fc =>
                          with_index (buildIndex p fc) (setSize v st)
                      | _, _ => setSize v st
                      end) by reflexivity.
    rewrite Hstep.
    destruct (projection (setSize v st)) as [p|] eqn:Ep.
    + destruct (countriesFC (setSize v st)) as [fc|] eqn:Ef.
      * unfold onResize. rewrite setSize_with_index, setSize_settled.
        unfold computeCentroids. cbn [projection countriesFC with_index].
        rewrite Ep, Ef. reflexivity.
      * unfold onResize. rewrite setSize_settled. unfold computeCentroids.
        rewrite Ep, Ef. reflexivity.
    + unfold onResize. rewrite setSize_settled. unfold computeCentroids.
      rewrite Ep. reflexivity.
  - unfold onResize. rewrite computeCentroids_pinned. reflexivity.
  - unfold onResize. rewrite computeCentroids_blips. reflexivity.
Qed.

(** Start-up is a load followed by a resize: what [init] leaves is what a
    resize to the viewport read after the load makes of the freshly loaded
    geometry.  The viewport read before the load has no lasting effect, and
    the projection block that [init] repeats after [setSize] changes
    nothing. *)
Theorem init_is_resize (v0 v1 : Viewport) (load : LoadResult G) :
  init v0 v1 load = onResize v1 (loaded load emptyState)
  /\ forall v0', init v0' v1 load = init v0 v1 load.
Proof.
  assert (Hinit : forall v, init v v1 load = onResize v1 (loaded load emptyState)).
  { intros v. unfold init, onResize. destruct load; reflexivity. }
  split; [apply Hinit|].
  intros v0'. rewrite !Hinit. reflexivity.
Qed.

End ResizeFacts.
